(** * The session-pairing and round-resolution engine of [server.js]

    A shallow embedding of the Socket.io event handlers of [src/server.js]
    and of the two helpers they share, [determineWinner] and [matchmaking].

    - The Registry [io.sockets.sockets] is a finite map from connection ids
      to the per-socket fields the handlers read and write ([opponent],
      [move], [walletAddress]).  A socket's [id] is the key it is stored
      under, so [opponentSocket.id] is the key that was looked up.  Two
      JavaScript references to one socket object are two uses of one key:
      writes through either are seen through the other.
    - [waitingPlayers] is a list of ids, [rematchRequests] a finite map from
      ids to booleans.  Only its own properties are modelled: the ids are
      the ones the transport generates, taken not to name a property that
      an object inherits.
    - Every [emit] is appended to [outbox] together with the id it is
      addressed to ([io.to(id).emit(..)] and [socket.emit(..)] alike), in
      program order.  What [console.log] prints is not modelled, only that
      building its message can throw (below).
    - The [playerMove] handler is [async]: it is split at its [await] into
      the part that runs when the event arrives and the part that runs once
      the reward call has settled.  The two [await]s of the handler count as
      one: nothing is read or written between them.
    - A payload is an object with the fields the handler reads; a handler
      that is sent no payload at all throws and is not modelled.
    - A handler that throws stops there: its function gives the state as it
      is at the throw.  The one throw the handlers can meet on the payloads
      modelled is a field that cannot be converted to a string where the
      handler logs it ([to_string_throws]).  What the runtime does with the
      exception is not modelled; where it ends the process, it ends the run.
    - The address a session has set is taken to be one that can be
      logged.
    - The transport ([socket.io]) is not part of the sources.  What is used
      of it: a socket is in the Registry under its id from before its
      [connection] callback runs until its connection closes, and it has
      left the Registry when its [disconnect] handler runs. *)

From stdpp Require Import gmap strings list fin_maps.

(* String literals, with [++] kept for lists. *)
Local Open Scope string_scope.
Local Open Scope list_scope.

(** ** JavaScript values carried by event payloads *)

(** The values a client can put in a payload field, and [undefined] for a
    field that is missing or was never set.  Numbers are the integers.  An
    object or an array is known by its identity and by whether it can be
    converted to a string ([printable]): the handlers never look inside
    one, but they log it.  An object that came in a payload cannot be
    converted when, for instance, it has an entry [toString] of its own,
    which is then not a function. *)
Inductive value :=
| VUndefined
| VNull
| VBool (b : bool)
| VNum (n : Z)
| VStr (s : string)
| VObj (ref : nat) (printable : bool).

#[global] Instance value_eq_dec : EqDecision value.
Proof. solve_decision. Defined.

(** [a === b] on these values. *)
Definition strict_eq (a b : value) : bool := bool_decide (a = b).

(** The truthiness test of [if (v)]. *)
Definition truthy (v : value) : bool :=
  match v with
  | VUndefined | VNull => false
  | VBool b => b
  | VNum n => negb (Z.eqb n 0)
  | VStr s => negb (String.eqb s "")
  | VObj _ _ => true
  end.

(** Whether [`${v}`] throws. *)
Definition to_string_throws (v : value) : bool :=
  match v with
  | VObj _ printable => negb printable
  | _ => false
  end.

(** The three moves of the game, as the strings the code compares with. *)
Definition rock : value := VStr "rock".
Definition paper : value := VStr "paper".
Definition scissors : value := VStr "scissors".

Definition is_rps (v : value) : bool :=
  strict_eq v rock || strict_eq v paper || strict_eq v scissors.

(** ** [determineWinner] *)

(** The three strings [determineWinner] returns. *)
Inductive outcome := draw | win | lose.

#[global] Instance outcome_eq_dec : EqDecision outcome.
Proof. solve_decision. Defined.

Definition determineWinner (player1Move player2Move : value) : outcome :=
  if strict_eq player1Move player2Move then draw
  else if (strict_eq player1Move rock && strict_eq player2Move scissors)
       || (strict_eq player1Move scissors && strict_eq player2Move paper)
       || (strict_eq player1Move paper && strict_eq player2Move rock)
  then win
  else lose.

(** The outcome seen from the other player's side. *)
Definition swap_outcome (o : outcome) : outcome :=
  match o with
  | draw => draw
  | win => lose
  | lose => win
  end.

(** The rule of the game in the words of the specification: rock beats
    scissors, scissors beats paper, paper beats rock. *)
Inductive Beats : value → value → Prop :=
| rock_beats_scissors : Beats rock scissors
| scissors_beats_paper : Beats scissors paper
| paper_beats_rock : Beats paper rock.

(** ** Outbound events *)

Inductive role := offerer | answerer.

#[global] Instance role_eq_dec : EqDecision role.
Proof. solve_decision. Defined.

(** The result of the external reward call, as the handler sees it: the
    transaction hash, or the message of the error that was thrown. *)
Inductive mint_result :=
| MintOk (txHash : string)
| MintFailed (message : string).

Inductive event :=
| welcome (msg : string)
| waitingForOpponent
| matchFound (opponentId : string) (r : role)
| signal (from sig : value)
| opponentDisconnected (msg : string)
| opponentLeft (msg : string)
| gameResult (result : string)
| tokensSent (r : mint_result)
| rematchReady (opponentId : string)
| opponentWantsRematch
| waitingForOpponentRematch.

#[global] Instance mint_result_eq_dec : EqDecision mint_result.
Proof. solve_decision. Defined.

#[global] Instance event_eq_dec : EqDecision event.
Proof. solve_decision. Defined.

(** ** Server state *)

(** The fields the handlers keep on a socket object.  [opponent] is [None]
    for [undefined] and [null], which the code never tells apart. *)
Record socket := Socket {
  opponent : option string;
  move : value;
  walletAddress : value
}.

Definition new_socket : socket :=
  {| opponent := None; move := VUndefined; walletAddress := VUndefined |}.

Record state := State {
  sockets : gmap string socket;
  waitingPlayers : list string;
  rematchRequests : gmap string bool;
  outbox : list (string * event)
}.

Definition initial : state :=
  {| sockets := ∅; waitingPlayers := []; rematchRequests := ∅; outbox := [] |}.

(** *** Field updates *)

Definition with_sockets (f : gmap string socket → gmap string socket)
    (st : state) : state :=
  {| sockets := f (sockets st); waitingPlayers := waitingPlayers st;
     rematchRequests := rematchRequests st; outbox := outbox st |}.

Definition set_waiting (q : list string) (st : state) : state :=
  {| sockets := sockets st; waitingPlayers := q;
     rematchRequests := rematchRequests st; outbox := outbox st |}.

Definition with_rematch (f : gmap string bool → gmap string bool)
    (st : state) : state :=
  {| sockets := sockets st; waitingPlayers := waitingPlayers st;
     rematchRequests := f (rematchRequests st); outbox := outbox st |}.

(** [io.to(to).emit(ev)] and, for the socket with id [to], [socket.emit(ev)]. *)
Definition emit (to : string) (ev : event) (st : state) : state :=
  {| sockets := sockets st; waitingPlayers := waitingPlayers st;
     rematchRequests := rematchRequests st;
     outbox := outbox st ++ [(to, ev)] |}.

(** [s.opponent = o] for the socket with id [sid]. *)
Definition set_opponent (sid : string) (o : option string) (st : state) : state :=
  with_sockets
    (alter (λ s, {| opponent := o; move := move s;
                    walletAddress := walletAddress s |}) sid) st.

(** [s.move = v] for the socket with id [sid]. *)
Definition set_move (sid : string) (v : value) (st : state) : state :=
  with_sockets
    (alter (λ s, {| opponent := opponent s; move := v;
                    walletAddress := walletAddress s |}) sid) st.

(** [s.walletAddress = v] for the socket with id [sid]. *)
Definition set_wallet (sid : string) (v : value) (st : state) : state :=
  with_sockets
    (alter (λ s, {| opponent := opponent s; move := move s;
                    walletAddress := v |}) sid) st.

(** [rematchRequests[sid] = b] and [delete rematchRequests[sid]]. *)
Definition set_flag (sid : string) (b : bool) (st : state) : state :=
  with_rematch (insert sid b) st.

Definition delete_flag (sid : string) (st : state) : state :=
  with_rematch (delete sid) st.

(** *** Reads *)

(** The test [if (rematchRequests[id])]. *)
Definition rematch_flag (st : state) (sid : string) : bool :=
  match rematchRequests st !! sid with
  | Some b => b
  | None => false
  end.

(** The test [if (socket.opponent)] together with the id it lets through:
    an absent reference and the empty string are both falsy. *)
Definition opponent_ref (s : socket) : option string :=
  match opponent s with
  | Some o => if String.eqb o "" then None else Some o
  | None => None
  end.

Definition opponent_of (st : state) (sid : string) : option string :=
  sockets st !! sid ≫= opponent.

Definition move_of (st : state) (sid : string) : option value :=
  move <$> sockets st !! sid.

(** [io.sockets.sockets.get(v)] for a payload value [v]: the keys of the
    Registry are strings, so only a string can be found. *)
Definition sockets_get (st : state) (v : value) : option (string * socket) :=
  match v with
  | VStr k => (λ s, (k, s)) <$> sockets st !! k
  | _ => None
  end.

(** ** [matchmaking] *)

(** The recursion of [matchmaking] on the waiting list [q] it still has to
    look at; [q] is [waitingPlayers] at the time of the call, and every
    recursive call is made right after a [shift]. *)
Fixpoint matchmaking_from (q : list string) (sid : string) (st : state) : state :=
  match q with
  | [] =>
      emit sid waitingForOpponent
        (set_waiting (waitingPlayers st ++ [sid]) st)
  | opponentId :: rest =>
      let st1 := set_waiting rest st in
      match sockets st1 !! opponentId with
      | Some _ =>
          let st2 := set_opponent sid (Some opponentId) st1 in
          let st3 := set_opponent opponentId (Some sid) st2 in
          let st4 := emit sid (matchFound opponentId offerer) st3 in
          emit opponentId (matchFound sid answerer) st4
      | None => matchmaking_from rest sid st1
      end
  end.

Definition matchmaking (sid : string) (st : state) : state :=
  matchmaking_from (waitingPlayers st) sid st.

(** ** The event handlers

    Each handler is installed on a connected socket and closes over it; the
    socket is named by its id [sid].  Apart from [disconnect], a handler runs
    only for a socket that is in the Registry, and does nothing here when it
    is not. *)

(** [io.on('connection', ..)]: the transport has stored the new socket
    under its id before the callback runs. *)
Definition on_connection (sid : string) (st : state) : state :=
  emit sid (welcome "Welcome to the Rock Paper Scissors game!")
    (with_sockets (insert sid new_socket) st).

(** The handler stores the address and then logs it. *)
Definition on_setWalletAddress (sid : string) (walletAddress : value)
    (st : state) : state :=
  set_wallet sid walletAddress st.

Definition on_readyToPlay (sid : string) (st : state) : state :=
  match sockets st !! sid with
  | Some _ => matchmaking sid st
  | None => st
  end.

(** [data = { to, from, signal }].  The handler first logs [from] and
    [to]. *)
Definition on_signal (sid : string) (to from sig : value) (st : state) : state :=
  match sockets st !! sid with
  | Some _ =>
      if to_string_throws from || to_string_throws to then st
      else
        match sockets_get st to with
        | Some (rid, _) => emit rid (signal from sig) st
        | None =>
            emit sid
              (opponentDisconnected "Your opponent is no longer available.") st
        end
  | None => st
  end.

(** What the [playerMove] handler holds on to across its [await]: the
    winner it asked a reward for, the address it passed, and the two socket
    objects whose moves it resets when it resumes. *)
Record mint_call := MintCall {
  mc_winner : string;
  mc_address : value;
  mc_socket : string;
  mc_opponent : string
}.

(** "Reset moves", the last two statements of the handler. *)
Definition reset_moves (sid oid : string) (st : state) : state :=
  set_move oid VNull (set_move sid VNull st).

(** [playerMove], from the arrival of the event to the end of the handler
    or to its first [await].  [data = { move }].  The handler first logs
    the move. *)
Definition on_playerMove (sid : string) (mv : value) (st : state)
    : state * option mint_call :=
  if to_string_throws mv then (st, None)
  else
    let st1 := set_move sid mv st in
    match sockets st1 !! sid with
    | None => (st, None)
    | Some sock =>
        match opponent_ref sock with
        | Some oid =>
            match sockets st1 !! oid with
            | Some osock =>
                if truthy (move osock) then
                  match determineWinner (move sock) (move osock) with
                  | draw =>
                      let st2 := emit sid (gameResult "Draw") st1 in
                      let st3 := emit oid (gameResult "Draw") st2 in
                      (reset_moves sid oid st3, None)
                  | win =>
                      let st2 := emit sid (gameResult "You won!") st1 in
                      let st3 := emit oid (gameResult "You lost!") st2 in
                      (st3, Some (MintCall sid (walletAddress sock) sid oid))
                  | lose =>
                      let st2 := emit oid (gameResult "You won!") st1 in
                      let st3 := emit sid (gameResult "You lost!") st2 in
                      (st3, Some (MintCall oid (walletAddress osock) sid oid))
                  end
                else (st1, None)
            | None => (st1, None)
            end
        | None => (st1, None)
        end
    end.

(** The rest of [playerMove], run when the reward call has settled: the
    [tokensSent] notification of the [try] or of the [catch] branch, then
    "Reset moves".  The state is the one found at that time. *)
Definition playerMove_settled (c : mint_call) (r : mint_result) (st : state)
    : state :=
  reset_moves (mc_socket c) (mc_opponent c) (emit (mc_winner c) (tokensSent r) st).

Definition on_requestRematch (sid : string) (st : state) : state :=
  match sockets st !! sid with
  | None => st
  | Some sock =>
      match opponent_ref sock with
      | Some oid =>
          match sockets st !! oid with
          | Some _ =>
              if rematch_flag st oid then
                let st1 := emit sid (rematchReady oid) st in
                let st2 := emit oid (rematchReady sid) st1 in
                let st3 := set_flag oid false st2 in
                let st4 := set_flag sid false st3 in
                let st5 := set_opponent sid (Some oid) st4 in
                set_opponent oid (Some sid) st5
              else
                let st1 := set_flag sid true st in
                let st2 := emit oid opponentWantsRematch st1 in
                emit sid waitingForOpponentRematch st2
          | None =>
              let st1 := emit sid (opponentLeft "Your opponent has disconnected.") st in
              let st2 := set_opponent sid None st1 in
              matchmaking sid st2
          end
      | None =>
          emit sid (opponentLeft "You have no opponent to rematch with.") st
      end
  end.

(** [data = { opponentId }].  When the opponent is not found, the handler
    first logs [opponentId]. *)
Definition on_rematchReady (sid : string) (opponentId : value) (st : state)
    : state :=
  match sockets st !! sid with
  | None => st
  | Some _ =>
      match sockets_get st opponentId with
      | Some (oid, _) =>
          let st1 := set_opponent sid (Some oid) st in
          let st2 := set_opponent oid (Some sid) st1 in
          let st3 := emit sid (matchFound oid offerer) st2 in
          emit oid (matchFound sid answerer) st3
      | None =>
          if to_string_throws opponentId then st
          else
            let st1 :=
              emit sid (opponentLeft "Your opponent has disconnected.") st in
            let st2 := set_opponent sid None st1 in
            matchmaking sid st2
      end
  end.

Definition on_findNewOpponent (sid : string) (st : state) : state :=
  match sockets st !! sid with
  | None => st
  | Some sock =>
      let st3 :=
        match opponent_ref sock with
        | Some oid =>
            let st2 :=
              match sockets st !! oid with
              | Some _ =>
                  let st1 :=
                    emit oid
                      (opponentLeft "Your opponent has decided to find a new opponent.")
                      st in
                  matchmaking oid (delete_flag oid (set_opponent oid None st1))
              | None => st
              end in
            set_opponent sid None st2
        | None => st
        end in
      matchmaking sid (delete_flag sid st3)
  end.

(** "Remove from waiting players if present", the first statement of the
    [disconnect] handler. *)
Definition remove_from_queue (sid : string) (st : state) : state :=
  set_waiting (filter (λ id, id ≠ sid) (waitingPlayers st)) st.

(** The [disconnect] handler proper, for the closed-over socket object
    [sock] with id [sid]. *)
Definition disconnect_handler (sid : string) (sock : socket) (st : state)
    : state :=
  let st1 := remove_from_queue sid st in
  let st2 :=
    match opponent_ref sock with
    | Some oid =>
        match sockets st1 !! oid with
        | Some _ =>
            let st' :=
              emit oid (opponentDisconnected "Your opponent has disconnected.") st1 in
            matchmaking oid (delete_flag oid (set_opponent oid None st'))
        | None => st1
        end
    | None => st1
    end in
  delete_flag sid st2.

(** A connection closes: the transport takes the socket out of the Registry
    and then fires its [disconnect] event. *)
Definition on_disconnect (sid : string) (st : state) : state :=
  match sockets st !! sid with
  | None => st
  | Some sock => disconnect_handler sid sock (with_sockets (delete sid) st)
  end.

(** ** Runs of the server *)

(** The inbound events of the lobby: a connection opens, a client sends
    [readyToPlay], a connection closes. *)
Inductive lobby_event :=
| Connect (sid : string)
| ReadyToPlay (sid : string)
| Disconnect (sid : string).

Definition lobby_step (e : lobby_event) (st : state) : state :=
  match e with
  | Connect sid => on_connection sid st
  | ReadyToPlay sid => on_readyToPlay sid st
  | Disconnect sid => on_disconnect sid st
  end.

(** Which events the transport can deliver in a state: it gives a new
    connection a fresh, non-empty id, and delivers messages and the closing
    of connections it knows. *)
Definition deliverable (e : lobby_event) (st : state) : Prop :=
  match e with
  | Connect sid => sid ≠ "" ∧ sockets st !! sid = None
  | ReadyToPlay sid => is_Some (sockets st !! sid)
  | Disconnect sid => is_Some (sockets st !! sid)
  end.

#[global] Instance deliverable_dec e st : Decision (deliverable e st).
Proof. destruct e; simpl; apply _. Defined.

(** The states the server can be in after some sequence of lobby events. *)
Inductive reachable : state → Prop :=
| reachable_initial : reachable initial
| reachable_step e st :
    reachable st → deliverable e st → reachable (lobby_step e st).

(** A session is paired when its handlers see an opponent, queued when its
    id is in [waitingPlayers]. *)
Definition paired (st : state) (sid : string) : Prop :=
  is_Some (sockets st !! sid ≫= opponent_ref).

Definition queued (st : state) (sid : string) : Prop :=
  sid ∈ waitingPlayers st.

(** Clients that send [readyToPlay] only while they are neither queued nor
    paired. *)
Definition well_behaved (e : lobby_event) (st : state) : Prop :=
  match e with
  | ReadyToPlay sid => ¬ queued st sid ∧ ¬ paired st sid
  | _ => True
  end.

#[global] Instance queued_dec st sid : Decision (queued st sid).
Proof. unfold queued. apply _. Defined.

#[global] Instance paired_dec st sid : Decision (paired st sid).
Proof. unfold paired. apply _. Defined.

#[global] Instance well_behaved_dec e st : Decision (well_behaved e st).
Proof. destruct e; simpl; apply _. Defined.

(** The states reached when all clients are well behaved. *)
Inductive reachable_wb : state → Prop :=
| reachable_wb_initial : reachable_wb initial
| reachable_wb_step e st :
    reachable_wb st → deliverable e st → well_behaved e st →
    reachable_wb (lobby_step e st).

(** Running a list of lobby events, oldest first. *)
Definition run (es : list lobby_event) (st : state) : state :=
  foldl (λ s e, lobby_step e s) st es.

(** Whether each event of a run can be delivered when its turn comes, and
    whether the run is moreover one of well-behaved clients. *)
Fixpoint deliverable_run (es : list lobby_event) (st : state) : Prop :=
  match es with
  | [] => True
  | e :: es' => deliverable e st ∧ deliverable_run es' (lobby_step e st)
  end.

Fixpoint well_behaved_run (es : list lobby_event) (st : state) : Prop :=
  match es with
  | [] => True
  | e :: es' =>
      deliverable e st ∧ well_behaved e st ∧
      well_behaved_run es' (lobby_step e st)
  end.

#[global] Instance well_behaved_run_dec es :
  ∀ st, Decision (well_behaved_run es st).
Proof. induction es; simpl; apply _. Defined.

(** ** Notions used in the statements *)

(** The state [matchmaking] leaves when it pairs the caller [sid] with the
    waiting session [h] and [rest] is what remains of the queue. *)
Definition pair_up (sid h : string) (rest : list string) (st : state) : state :=
  emit h (matchFound sid answerer)
    (emit sid (matchFound h offerer)
       (set_opponent h (Some sid)
          (set_opponent sid (Some h) (set_waiting rest st)))).

(** The state [matchmaking] leaves when it finds nobody to pair with. *)
Definition enqueue (sid : string) (st : state) : state :=
  emit sid waitingForOpponent (set_waiting [sid] st).

(** The state in which the [disconnect] handler of [sid] finds the server,
    after its first statement. *)
Definition closed (sid : string) (st : state) : state :=
  remove_from_queue sid (with_sockets (delete sid) st).

(** [same_moves st st']: every session has the same [move] in [st'] as in
    [st]. *)
Definition same_moves (st st' : state) : Prop :=
  ∀ x, move_of st' x = move_of st x.

(** The opponent a session's handlers see, if any. *)
Definition ref_of (st : state) (sid : string) : option string :=
  sockets st !! sid ≫= opponent_ref.

(** The invariant of the lobby under well-behaved clients: the queue has no
    duplicates and holds only connected sessions without an opponent; the
    opponent relation is symmetric and irreflexive; no id is empty. *)
Record lobby_inv (st : state) : Prop := LobbyInv {
  inv_nodup : NoDup (waitingPlayers st);
  inv_queue_connected :
    ∀ x, x ∈ waitingPlayers st → is_Some (sockets st !! x);
  inv_queue_unpaired : ∀ x, x ∈ waitingPlayers st → ref_of st x = None;
  inv_symmetric : ∀ a o, ref_of st a = Some o → a ≠ o ∧ ref_of st o = Some a;
  inv_ids : sockets st !! "" = None
}.

(** ** Sample states *)

(** A alone, connected. *)
Definition lobby_A : state := run [Connect "A"] initial.

(** A alone, waiting in the queue. *)
Definition lobby_A_waiting : state :=
  run [Connect "A"; ReadyToPlay "A"] initial.

(** A waiting in the queue, B connected. *)
Definition lobby_A_waiting_B : state :=
  run [Connect "A"; ReadyToPlay "A"; Connect "B"] initial.

(** A and B paired. *)
Definition lobby_A_B : state :=
  run [Connect "A"; ReadyToPlay "A"; Connect "B"; ReadyToPlay "B"] initial.

(** A and B paired, C waiting. *)
Definition lobby_pair_and_C : state :=
  run [Connect "A"; ReadyToPlay "A"; Connect "B"; ReadyToPlay "B";
       Connect "C"; ReadyToPlay "C"] initial.

(** Two pairs: A with B, then C with D. *)
Definition lobby_two_pairs : state :=
  run [Connect "A"; ReadyToPlay "A"; Connect "B"; ReadyToPlay "B";
       Connect "C"; ReadyToPlay "C"; Connect "D"; ReadyToPlay "D"] initial.

(** A is paired with B and sends [readyToPlay] again. *)
Definition lobby_A_ready_again : state := run [ReadyToPlay "A"] lobby_A_B.

(** A and B paired, B has asked for a rematch. *)
Definition lobby_B_asked : state := on_requestRematch "B" lobby_A_B.

(** A and B paired, B has played rock and waits for A's move. *)
Definition lobby_B_played : state := (on_playerMove "B" rock lobby_A_B).1.

(** A and B are paired and A has played rock; B's connection closes, which
    puts A back in the queue; C connects and is paired with A. *)
Definition lobby_A_repaired : state :=
  run [Disconnect "B"; Connect "C"; ReadyToPlay "C"]
    (on_playerMove "A" rock lobby_A_B).1.

(** ** The whole server *)

(** Everything that can happen to the server: the lifecycle events of a
    connection, the messages of a client, and the settling of a reward call
    that a [playerMove] handler is waiting for. *)
Inductive inbound :=
| InConnection (sid : string)
| InSetWalletAddress (sid : string) (walletAddress : value)
| InReadyToPlay (sid : string)
| InSignal (sid : string) (to from sig : value)
| InPlayerMove (sid : string) (mv : value)
| InRewardSettled (n : nat) (r : mint_result)
| InRequestRematch (sid : string)
| InRematchReady (sid : string) (opponentId : value)
| InFindNewOpponent (sid : string)
| InDisconnect (sid : string).

(** The shared state together with the suspended [playerMove] handlers. *)
Record server := Server {
  current : state;
  awaiting : list mint_call
}.

Definition boot : server := {| current := initial; awaiting := [] |}.

Definition handle (e : inbound) (s : server) : server :=
  match e with
  | InConnection sid =>
      {| current := on_connection sid (current s); awaiting := awaiting s |}
  | InSetWalletAddress sid a =>
      {| current := on_setWalletAddress sid a (current s);
         awaiting := awaiting s |}
  | InReadyToPlay sid =>
      {| current := on_readyToPlay sid (current s); awaiting := awaiting s |}
  | InSignal sid to from sig =>
      {| current := on_signal sid to from sig (current s);
         awaiting := awaiting s |}
  | InPlayerMove sid mv =>
      let r := on_playerMove sid mv (current s) in
      {| current := r.1;
         awaiting := awaiting s ++ from_option (λ c, [c]) [] r.2 |}
  | InRewardSettled n r =>
      match awaiting s !! n with
      | Some c =>
          {| current := playerMove_settled c r (current s);
             awaiting := delete n (awaiting s) |}
      | None => s
      end
  | InRequestRematch sid =>
      {| current := on_requestRematch sid (current s); awaiting := awaiting s |}
  | InRematchReady sid o =>
      {| current := on_rematchReady sid o (current s); awaiting := awaiting s |}
  | InFindNewOpponent sid =>
      {| current := on_findNewOpponent sid (current s);
         awaiting := awaiting s |}
  | InDisconnect sid =>
      {| current := on_disconnect sid (current s); awaiting := awaiting s |}
  end.

(** What the transport can hand to the server: a connection with a fresh,
    non-empty id; anything else in any order and with any payload. *)
Definition acceptable (e : inbound) (s : server) : Prop :=
  match e with
  | InConnection sid => sid ≠ "" ∧ sockets (current s) !! sid = None
  | _ => True
  end.

#[global] Instance acceptable_dec e s : Decision (acceptable e s).
Proof. destruct e; simpl; apply _. Defined.

Inductive server_reachable : server → Prop :=
| server_reachable_boot : server_reachable boot
| server_reachable_step e s :
    server_reachable s → acceptable e s → server_reachable (handle e s).

Definition serve (es : list inbound) (s : server) : server :=
  foldl (λ s e, handle e s) s es.

Fixpoint acceptable_run (es : list inbound) (s : server) : Prop :=
  match es with
  | [] => True
  | e :: es' => acceptable e s ∧ acceptable_run es' (handle e s)
  end.

#[global] Instance acceptable_run_dec es : ∀ s, Decision (acceptable_run es s).
Proof. induction es; simpl; apply _. Defined.

(** [connected st x]: the session [x] is in the Registry. *)
Definition connected (st : state) (x : string) : Prop :=
  is_Some (sockets st !! x).

(** [flagged st k]: [rematchRequests] has an entry for [k]. *)
Definition flagged (st : state) (k : string) : Prop :=
  is_Some (rematchRequests st !! k).

(** What holds of the queue in every state of the server. *)
Definition queue_inv (st : state) : Prop :=
  (length (waitingPlayers st) ≤ 1)%nat ∧
  ∀ x, x ∈ waitingPlayers st → connected st x.

(** What holds of the rematch flags in every state of the server. *)
Definition flags_inv (st : state) : Prop :=
  ∀ k, flagged st k → connected st k.

(** [steady st st']: going from [st] to [st'] keeps the set of connected
    sessions, flags only connected sessions, and keeps [queue_inv]. *)
Definition steady (st st' : state) : Prop :=
  (∀ x, connected st' x ↔ connected st x) ∧
  (∀ k, flagged st' k → flagged st k ∨ connected st k) ∧
  (queue_inv st → queue_inv st').

(** A game in progress, used below: A and B connected in that order, both
    with an address, paired by [readyToPlay]; A has played rock and B
    scissors, and the reward call for A has not settled yet. *)
Definition game_A_B : server :=
  serve [InConnection "A"; InSetWalletAddress "A" (VStr "0xA");
         InReadyToPlay "A"; InConnection "B";
         InSetWalletAddress "B" (VStr "0xB"); InReadyToPlay "B";
         InPlayerMove "A" rock; InPlayerMove "B" scissors] boot.

(** The same game with a third session, C, waiting for an opponent. *)
Definition game_C_waiting : server :=
  serve [InConnection "C"; InReadyToPlay "C"] game_A_B.

(** The same game after A has asked for a rematch. *)
Definition game_A_asked : server := serve [InRequestRematch "A"] game_A_B.

(** Two pairs, A with B and C with D; A names C in a [rematchReady]; then
    the connections of C and of A close.  B and D are left with opponents
    that are gone. *)
Definition lobby_B_D_stranded : state :=
  on_disconnect "A"
    (on_disconnect "C" (on_rematchReady "A" (VStr "C") lobby_two_pairs)).

(** ** Sessions that have asked to play *)

(** Clients that never send [readyToPlay] while they have an opponent. *)
Definition unpaired_sender (e : lobby_event) (st : state) : Prop :=
  match e with
  | ReadyToPlay sid => ¬ paired st sid
  | _ => True
  end.

#[global] Instance unpaired_sender_dec e st : Decision (unpaired_sender e st).
Proof. destruct e; simpl; apply _. Defined.

(** The set of the sessions that have sent [readyToPlay] since they
    connected, after one more event. *)
Definition note_ready (e : lobby_event) (R : gset string) : gset string :=
  match e with
  | Connect sid => R ∖ {[sid]}
  | ReadyToPlay sid => R ∪ {[sid]}
  | Disconnect sid => R ∖ {[sid]}
  end.

(** The states reached when no client sends [readyToPlay] while it has an
    opponent, each with the set of the sessions that have sent
    [readyToPlay] since they connected. *)
Inductive reachable_unpaired : state → gset string → Prop :=
| reachable_unpaired_initial : reachable_unpaired initial ∅
| reachable_unpaired_step e st R :
    reachable_unpaired st R → deliverable e st → unpaired_sender e st →
    reachable_unpaired (lobby_step e st) (note_ready e R).

Definition ready_senders (es : list lobby_event) (R : gset string)
    : gset string :=
  foldl (λ R e, note_ready e R) R es.

Fixpoint unpaired_run (es : list lobby_event) (st : state) : Prop :=
  match es with
  | [] => True
  | e :: es' =>
      deliverable e st ∧ unpaired_sender e st ∧
      unpaired_run es' (lobby_step e st)
  end.

#[global] Instance unpaired_run_dec es : ∀ st, Decision (unpaired_run es st).
Proof. induction es; simpl; apply _. Defined.

(** The invariant of the lobby when no paired session sends [readyToPlay]:
    at most one session waits; a waiting session is connected and has no
    opponent; the opponent relation is symmetric; no id is empty. *)
Record pairing_inv (st : state) : Prop := PairingInv {
  pi_short : (length (waitingPlayers st) ≤ 1)%nat;
  pi_connected : ∀ x, x ∈ waitingPlayers st → connected st x;
  pi_unpaired : ∀ x, x ∈ waitingPlayers st → ref_of st x = None;
  pi_symmetric : ∀ a o, ref_of st a = Some o → ref_of st o = Some a;
  pi_ids : sockets st !! "" = None
}.

(** [tracks st P]: the sessions of which [P] holds are the ones that are
    queued or paired in [st]. *)
Definition tracks (st : state) (P : string → Prop) : Prop :=
  ∀ x, P x ↔ (x ∈ waitingPlayers st ∨ is_Some (ref_of st x)).

(** A, B and C connect and send [readyToPlay] in turn, and C, left waiting,
    sends it once more. *)
Definition lobby_C_ready_again : state :=
  run [Connect "A"; ReadyToPlay "A"; Connect "B"; ReadyToPlay "B";
       Connect "C"; ReadyToPlay "C"; ReadyToPlay "C"] initial.

(** * Properties *)

(** ** Round resolution *)

Lemma is_rps_cases (v : value) :
  is_rps v = true → v = rock ∨ v = paper ∨ v = scissors.
Proof.
  unfold is_rps, strict_eq. intros H.
  repeat (apply orb_prop in H as [H|H]);
    apply bool_decide_eq_true in H; auto.
Qed.

(** C1. For two moves taken from rock, paper and scissors, [determineWinner]
    gives a draw exactly when the moves are identical, a win for the first
    player exactly when the first move beats the second (rock beats
    scissors, scissors beats paper, paper beats rock), and a loss exactly
    when the second beats the first; so every pair is resolved, and swapping
    the two moves swaps the winner while a draw stays a draw. *)
Theorem determineWinner_total_and_swaps (m1 m2 : value) :
  is_rps m1 = true → is_rps m2 = true →
  (determineWinner m1 m2 = draw ↔ m1 = m2) ∧
  (determineWinner m1 m2 = win ↔ Beats m1 m2) ∧
  (determineWinner m1 m2 = lose ↔ Beats m2 m1) ∧
  determineWinner m2 m1 = swap_outcome (determineWinner m1 m2).
Proof.
  intros H1 H2.
  apply is_rps_cases in H1 as [-> | [-> | ->]];
    apply is_rps_cases in H2 as [-> | [-> | ->]];
    (split; [|split; [|split]]);
    try reflexivity;
    (split; intros H;
     first [ reflexivity | discriminate H | constructor | inversion H ]).
Qed.

Lemma determineWinner_total_and_swaps_witness :
  (determineWinner rock scissors = draw ↔ rock = scissors) ∧
  (determineWinner rock scissors = win ↔ Beats rock scissors) ∧
  (determineWinner rock scissors = lose ↔ Beats scissors rock) ∧
  determineWinner scissors rock = swap_outcome (determineWinner rock scissors).
Proof. apply determineWinner_total_and_swaps; reflexivity. Defined.

(** ** Reading the state after an update *)

Lemma lookup_set_opponent (st : state) (a b : string) (o : option string) :
  sockets (set_opponent a o st) !! b =
    if decide (a = b)
    then (λ s, {| opponent := o; move := move s;
                  walletAddress := walletAddress s |}) <$> sockets st !! a
    else sockets st !! b.
Proof. unfold set_opponent; simpl. apply lookup_alter. Qed.

Lemma lookup_set_move (st : state) (a b : string) (v : value) :
  sockets (set_move a v st) !! b =
    if decide (a = b)
    then (λ s, {| opponent := opponent s; move := v;
                  walletAddress := walletAddress s |}) <$> sockets st !! a
    else sockets st !! b.
Proof. unfold set_move; simpl. apply lookup_alter. Qed.

Lemma set_opponent_is_Some (st : state) (a b : string) (o : option string) :
  is_Some (sockets (set_opponent a o st) !! b) ↔ is_Some (sockets st !! b).
Proof.
  rewrite lookup_set_opponent. case_decide; [subst|done].
  by rewrite fmap_is_Some.
Qed.

Lemma set_move_is_Some (st : state) (a b : string) (v : value) :
  is_Some (sockets (set_move a v st) !! b) ↔ is_Some (sockets st !! b).
Proof.
  rewrite lookup_set_move. case_decide; [subst|done].
  by rewrite fmap_is_Some.
Qed.

Lemma opponent_of_set_opponent_eq (st : state) (a : string) (o : option string) :
  is_Some (sockets st !! a) → opponent_of (set_opponent a o st) a = o.
Proof.
  intros [s Hs]. unfold opponent_of.
  rewrite lookup_set_opponent, decide_True, Hs by done. done.
Qed.

Lemma opponent_of_set_opponent_ne (st : state) (a b : string) (o : option string) :
  a ≠ b → opponent_of (set_opponent a o st) b = opponent_of st b.
Proof.
  intros Hne. unfold opponent_of.
  by rewrite lookup_set_opponent, decide_False.
Qed.

Lemma move_of_set_opponent (st : state) (a b : string) (o : option string) :
  move_of (set_opponent a o st) b = move_of st b.
Proof.
  unfold move_of. rewrite lookup_set_opponent.
  case_decide; [subst|done]. by destruct (sockets st !! b).
Qed.

Lemma opponent_of_set_move (st : state) (a b : string) (v : value) :
  opponent_of (set_move a v st) b = opponent_of st b.
Proof.
  unfold opponent_of. rewrite lookup_set_move.
  case_decide; [subst|done]. by destruct (sockets st !! b).
Qed.

Lemma move_of_set_move_eq (st : state) (a : string) (v : value) :
  is_Some (sockets st !! a) → move_of (set_move a v st) a = Some v.
Proof.
  intros [s Hs]. unfold move_of.
  rewrite lookup_set_move, decide_True, Hs by done. done.
Qed.

Lemma move_of_set_move_ne (st : state) (a b : string) (v : value) :
  a ≠ b → move_of (set_move a v st) b = move_of st b.
Proof.
  intros Hne. unfold move_of. by rewrite lookup_set_move, decide_False.
Qed.

Lemma sockets_emit (st : state) (to : string) (ev : event) :
  sockets (emit to ev st) = sockets st.
Proof. done. Qed.

Lemma sockets_set_waiting (st : state) (q : list string) :
  sockets (set_waiting q st) = sockets st.
Proof. done. Qed.

Lemma sockets_with_rematch (st : state) (f : gmap string bool → gmap string bool) :
  sockets (with_rematch f st) = sockets st.
Proof. done. Qed.

Lemma opponent_of_emit (st : state) (to b : string) (ev : event) :
  opponent_of (emit to ev st) b = opponent_of st b.
Proof. done. Qed.

Lemma opponent_of_set_waiting (st : state) (q : list string) (b : string) :
  opponent_of (set_waiting q st) b = opponent_of st b.
Proof. done. Qed.

Lemma move_of_emit (st : state) (to b : string) (ev : event) :
  move_of (emit to ev st) b = move_of st b.
Proof. done. Qed.

Lemma move_of_delete_flag (st : state) (a b : string) :
  move_of (delete_flag a st) b = move_of st b.
Proof. done. Qed.

Lemma move_of_set_flag (st : state) (a b : string) (f : bool) :
  move_of (set_flag a f st) b = move_of st b.
Proof. done. Qed.

Lemma move_of_set_waiting (st : state) (q : list string) (b : string) :
  move_of (set_waiting q st) b = move_of st b.
Proof. done. Qed.

(** ** Matchmaking *)

(** The body of [matchmaking], one call at a time, as the source has it. *)
Lemma matchmaking_unfold (sid : string) (st : state) :
  matchmaking sid st =
    match waitingPlayers st with
    | [] =>
        emit sid waitingForOpponent (set_waiting (waitingPlayers st ++ [sid]) st)
    | opponentId :: rest =>
        let st1 := set_waiting rest st in
        match sockets st1 !! opponentId with
        | Some _ =>
            emit opponentId (matchFound sid answerer)
              (emit sid (matchFound opponentId offerer)
                 (set_opponent opponentId (Some sid)
                    (set_opponent sid (Some opponentId) st1)))
        | None => matchmaking sid st1
        end
    end.
Proof.
  unfold matchmaking.
  destruct (waitingPlayers st) as [|o rest] eqn:Hq; simpl; [by rewrite Hq|].
  by destruct (sockets st !! o).
Qed.

(** What a call of [matchmaking] amounts to: the ids at the head of the
    queue that are no longer in the Registry are dropped; the caller is
    paired with the first waiting session that still is, or queued alone
    when there is none. *)
Lemma matchmaking_from_cases (sid : string) (q : list string) :
  ∀ st, waitingPlayers st = q →
    (Forall (λ x, sockets st !! x = None) q ∧
     matchmaking_from q sid st = enqueue sid st)
    ∨ (∃ stale h rest,
         q = stale ++ h :: rest ∧
         Forall (λ x, sockets st !! x = None) stale ∧
         is_Some (sockets st !! h) ∧
         matchmaking_from q sid st = pair_up sid h rest st).
Proof.
  induction q as [|o rest IH]; intros st Hq.
  - left. split; [constructor|]. simpl. by rewrite Hq.
  - simpl. destruct (sockets st !! o) as [s|] eqn:Ho.
    + right. exists [], o, rest. by repeat split.
    + destruct (IH (set_waiting rest st) eq_refl)
        as [[Hall Heq] | (stale & h & rest' & -> & Hall & Hh & Heq)].
      * left. split; [by constructor|]. by rewrite Heq.
      * right. exists (o :: stale), h, rest'.
        split; [done|]. split; [by constructor|]. split; [done|].
        by rewrite Heq.
Qed.

Lemma matchmaking_cases (sid : string) (st : state) :
  (Forall (λ x, sockets st !! x = None) (waitingPlayers st) ∧
   matchmaking sid st = enqueue sid st)
  ∨ (∃ stale h rest,
       waitingPlayers st = stale ++ h :: rest ∧
       Forall (λ x, sockets st !! x = None) stale ∧
       is_Some (sockets st !! h) ∧
       matchmaking sid st = pair_up sid h rest st).
Proof. by apply matchmaking_from_cases. Qed.

Lemma opponent_of_pair_up (sid h : string) (rest : list string) (st : state) :
  is_Some (sockets st !! sid) → is_Some (sockets st !! h) →
  opponent_of (pair_up sid h rest st) sid = Some h ∧
  opponent_of (pair_up sid h rest st) h = Some sid.
Proof.
  intros Hsid Hh. unfold pair_up. rewrite !opponent_of_emit.
  split.
  - destruct (decide (h = sid)) as [->|Hne].
    + by rewrite opponent_of_set_opponent_eq
        by (by apply set_opponent_is_Some).
    + rewrite opponent_of_set_opponent_ne by done.
      by rewrite opponent_of_set_opponent_eq.
  - rewrite opponent_of_set_opponent_eq; [done|].
    by apply set_opponent_is_Some.
Qed.

Lemma matchmaking_head_connected (sid h : string) (rest : list string)
    (st : state) :
  waitingPlayers st = h :: rest → is_Some (sockets st !! h) →
  matchmaking sid st = pair_up sid h rest st.
Proof.
  intros Hq [s Hh]. rewrite matchmaking_unfold, Hq. simpl. by rewrite Hh.
Qed.

Lemma pair_up_is_Some (sid h b : string) (rest : list string) (st : state) :
  is_Some (sockets (pair_up sid h rest st) !! b) ↔ is_Some (sockets st !! b).
Proof.
  unfold pair_up.
  by rewrite !sockets_emit, !set_opponent_is_Some.
Qed.

Lemma outbox_pair_up (sid h : string) (rest : list string) (st : state) :
  outbox (pair_up sid h rest st) =
    outbox st ++ [(sid, matchFound h offerer); (h, matchFound sid answerer)].
Proof. simpl. by rewrite <- app_assoc. Qed.

(** C2. A call of [matchmaking] for a connected caller: with an empty queue
    the caller's id is appended to the queue and the only notification is
    [waitingForOpponent], sent to the caller; with a non-empty queue whose
    head is still in the Registry, the head is taken off the queue, the two
    [matchFound] notifications are emitted, and in the state that results
    the caller's opponent is the head and the head's opponent is the caller,
    both still in the Registry.  (It holds whether or not the caller was
    paired before the call.) *)
Theorem matchmaking_waits_or_pairs (st : state) (sid : string) :
  is_Some (sockets st !! sid) →
  (waitingPlayers st = [] →
     waitingPlayers (matchmaking sid st) = waitingPlayers st ++ [sid] ∧
     outbox (matchmaking sid st) = outbox st ++ [(sid, waitingForOpponent)] ∧
     sockets (matchmaking sid st) = sockets st ∧
     rematchRequests (matchmaking sid st) = rematchRequests st) ∧
  (∀ h rest,
     waitingPlayers st = h :: rest → is_Some (sockets st !! h) →
     waitingPlayers (matchmaking sid st) = rest ∧
     outbox (matchmaking sid st) =
       outbox st ++ [(sid, matchFound h offerer); (h, matchFound sid answerer)] ∧
     opponent_of (matchmaking sid st) sid = Some h ∧
     opponent_of (matchmaking sid st) h = Some sid ∧
     is_Some (sockets (matchmaking sid st) !! sid) ∧
     is_Some (sockets (matchmaking sid st) !! h)).
Proof.
  intros Hsid. split.
  - intros Hq. rewrite matchmaking_unfold, Hq. done.
  - intros h rest Hq Hh. rewrite (matchmaking_head_connected sid h rest) by done.
    destruct (opponent_of_pair_up sid h rest st) as [H1 H2]; [done..|].
    split; [done|]. split; [apply outbox_pair_up|].
    split; [done|]. split; [done|].
    split; by apply pair_up_is_Some.
Qed.

Lemma matchmaking_waits_or_pairs_witness :
  (waitingPlayers (matchmaking "A" lobby_A) = ["A"] ∧
   outbox (matchmaking "A" lobby_A) =
     outbox lobby_A ++ [("A", waitingForOpponent)]) ∧
  (waitingPlayers (matchmaking "B" lobby_A_waiting_B) = [] ∧
   opponent_of (matchmaking "B" lobby_A_waiting_B) "B" = Some "A" ∧
   opponent_of (matchmaking "B" lobby_A_waiting_B) "A" = Some "B").
Proof.
  split.
  - destruct (matchmaking_waits_or_pairs lobby_A "A") as [H _].
    + by eexists.
    + destruct H as (H1 & H2 & _); [reflexivity|]. split; [exact H1|exact H2].
  - destruct (matchmaking_waits_or_pairs lobby_A_waiting_B "B") as [_ H].
    + by eexists.
    + destruct (H "A" []) as (H1 & _ & H3 & H4 & _);
        [reflexivity | by eexists |].
      split; [exact H1|]. split; [exact H3|exact H4].
Defined.

(** C8. When the caller is connected and is the only id in the queue, its
    [readyToPlay] makes [matchmaking] take the caller's own id off the
    queue and pair the session with itself: the queue is left empty, the
    session's opponent is its own id, and it is sent both [matchFound]
    notifications, first as offerer and then as answerer.  The state is
    reached by a session that connects and sends [readyToPlay] once. *)
Theorem ready_again_pairs_with_itself (st : state) (sid : string) :
  is_Some (sockets st !! sid) →
  waitingPlayers st = [sid] →
  waitingPlayers (on_readyToPlay sid st) = [] ∧
  opponent_of (on_readyToPlay sid st) sid = Some sid ∧
  outbox (on_readyToPlay sid st) =
    outbox st ++ [(sid, matchFound sid offerer); (sid, matchFound sid answerer)].
Proof.
  intros Hsid Hq. unfold on_readyToPlay.
  destruct Hsid as [s Hs]. rewrite Hs.
  rewrite (matchmaking_head_connected sid sid []) by (done || by eexists).
  split; [done|]. split; [|apply outbox_pair_up].
  apply opponent_of_pair_up; by eexists.
Qed.

Lemma lobby_A_waiting_reachable : reachable lobby_A_waiting.
Proof.
  apply (reachable_step (ReadyToPlay "A")); [|by eexists].
  apply (reachable_step (Connect "A")); [constructor|done].
Qed.

Lemma ready_again_pairs_with_itself_witness :
  reachable lobby_A_waiting ∧
  waitingPlayers (on_readyToPlay "A" lobby_A_waiting) = [] ∧
  opponent_of (on_readyToPlay "A" lobby_A_waiting) "A" = Some "A" ∧
  outbox (on_readyToPlay "A" lobby_A_waiting) =
    outbox lobby_A_waiting
      ++ [("A", matchFound "A" offerer); ("A", matchFound "A" answerer)].
Proof.
  split; [exact lobby_A_waiting_reachable|].
  apply ready_again_pairs_with_itself; [by eexists | reflexivity].
Defined.

Lemma outbox_on_rematchReady (st : state) (sid oid : string) :
  is_Some (sockets st !! sid) → is_Some (sockets st !! oid) →
  outbox (on_rematchReady sid (VStr oid) st) =
    outbox st ++ [(sid, matchFound oid offerer); (oid, matchFound sid answerer)].
Proof.
  intros [s Hs] [o Ho]. unfold on_rematchReady, sockets_get.
  rewrite Hs, Ho. simpl. by rewrite <- app_assoc.
Qed.



(** ** Disconnection *)

Lemma filter_other_absent (sid : string) (q : list string) :
  sid ∉ q → filter (λ id, id ≠ sid) q = q.
Proof.
  induction q as [|x q IH]; intros Hnot; [done|].
  apply not_elem_of_cons in Hnot as [Hne Hq].
  rewrite filter_cons_True by done. by rewrite IH.
Qed.

Lemma remove_from_queue_absent (sid : string) (st : state) :
  sid ∉ waitingPlayers st → remove_from_queue sid st = st.
Proof.
  intros Hnot. unfold remove_from_queue.
  rewrite filter_other_absent by done. by destruct st.
Qed.

Lemma remove_from_queue_removes (sid : string) (st : state) :
  sid ∉ waitingPlayers (remove_from_queue sid st).
Proof. simpl. rewrite list_elem_of_filter. tauto. Qed.

(** C6. Closing the connection of a session that is not in the queue and
    has no opponent takes the session out of the Registry and drops its own
    rematch flag, and changes nothing else: the queue and the notifications
    sent are the same, and every other session keeps its Registry entry
    (with its opponent reference) and its rematch flag.  The removal from
    the queue does nothing when the session is absent, and doing it twice
    is the same as doing it once. *)
Theorem disconnect_idle_session (st : state) (sid : string) (sock : socket) :
  sockets st !! sid = Some sock →
  sid ∉ waitingPlayers st →
  opponent_ref sock = None →
  on_disconnect sid st =
    {| sockets := delete sid (sockets st);
       waitingPlayers := waitingPlayers st;
       rematchRequests := delete sid (rematchRequests st);
       outbox := outbox st |}
  ∧ (∀ other, other ≠ sid →
       sockets (on_disconnect sid st) !! other = sockets st !! other ∧
       opponent_of (on_disconnect sid st) other = opponent_of st other ∧
       rematchRequests (on_disconnect sid st) !! other =
         rematchRequests st !! other)
  ∧ remove_from_queue sid st = st
  ∧ remove_from_queue sid (remove_from_queue sid st) = remove_from_queue sid st.
Proof.
  intros Hs Hq Hopp.
  assert (Heq : on_disconnect sid st =
    {| sockets := delete sid (sockets st);
       waitingPlayers := waitingPlayers st;
       rematchRequests := delete sid (rematchRequests st);
       outbox := outbox st |}).
  { unfold on_disconnect. rewrite Hs. unfold disconnect_handler.
    rewrite Hopp. unfold remove_from_queue. simpl.
    by rewrite filter_other_absent. }
  split; [exact Heq|]. split; [|split].
  - intros other Hne. rewrite Heq. unfold opponent_of. simpl.
    by rewrite !lookup_delete_ne.
  - by apply remove_from_queue_absent.
  - apply remove_from_queue_absent, remove_from_queue_removes.
Qed.

Lemma disconnect_idle_session_witness :
  on_disconnect "B" lobby_A_waiting_B =
    {| sockets := delete "B" (sockets lobby_A_waiting_B);
       waitingPlayers := waitingPlayers lobby_A_waiting_B;
       rematchRequests := delete "B" (rematchRequests lobby_A_waiting_B);
       outbox := outbox lobby_A_waiting_B |}
  ∧ (∀ other, other ≠ "B" →
       sockets (on_disconnect "B" lobby_A_waiting_B) !! other =
         sockets lobby_A_waiting_B !! other ∧
       opponent_of (on_disconnect "B" lobby_A_waiting_B) other =
         opponent_of lobby_A_waiting_B other ∧
       rematchRequests (on_disconnect "B" lobby_A_waiting_B) !! other =
         rematchRequests lobby_A_waiting_B !! other)
  ∧ remove_from_queue "B" lobby_A_waiting_B = lobby_A_waiting_B
  ∧ remove_from_queue "B" (remove_from_queue "B" lobby_A_waiting_B) =
      remove_from_queue "B" lobby_A_waiting_B.
Proof.
  apply (disconnect_idle_session lobby_A_waiting_B "B" new_socket).
  - reflexivity.
  - vm_compute. by apply not_elem_of_cons; split; [|apply not_elem_of_nil].
  - reflexivity.
Defined.

(** ** Building reachable states *)

Lemma reachable_run (es : list lobby_event) :
  ∀ st, reachable st → deliverable_run es st → reachable (run es st).
Proof.
  induction es as [|e es IH]; intros st Hst Hes; [done|].
  destruct Hes as [He Hes]. apply IH; [|done]. by constructor.
Qed.

Lemma lobby_two_pairs_reachable : reachable lobby_two_pairs.
Proof.
  apply reachable_run; [constructor|].
  repeat (split; [first [ by eexists | done ]|]). done.
Qed.

(** ** The [rematchReady] handler *)

Lemma opponent_of_on_rematchReady (st : state) (sid target : string) :
  is_Some (sockets st !! sid) → is_Some (sockets st !! target) →
  opponent_of (on_rematchReady sid (VStr target) st) sid = Some target ∧
  opponent_of (on_rematchReady sid (VStr target) st) target = Some sid ∧
  (∀ other, other ≠ sid → other ≠ target →
     opponent_of (on_rematchReady sid (VStr target) st) other =
       opponent_of st other).
Proof.
  intros [s Hs] [t Ht]. unfold on_rematchReady, sockets_get.
  rewrite Hs, Ht. simpl.
  split; [|split]; rewrite ?opponent_of_emit.
  - destruct (decide (target = sid)) as [->|Hne].
    + by rewrite opponent_of_set_opponent_eq
        by (apply set_opponent_is_Some; by eexists).
    + rewrite opponent_of_set_opponent_ne by done.
      rewrite opponent_of_set_opponent_eq; [done | by eexists].
  - rewrite opponent_of_set_opponent_eq; [done|].
    apply set_opponent_is_Some. by eexists.
  - intros other H1 H2.
    by rewrite !opponent_of_emit, !opponent_of_set_opponent_ne by congruence.
Qed.

(** C10. The [rematchReady] handler pairs the caller with whatever
    connected session the id in the payload names: afterwards the caller's
    opponent is that session and that session's opponent is the caller,
    whatever the opponents of the two were before, and no other session is
    touched.  So when the named session [target] was paired with a third
    session [former], [former] still refers to [target], which now refers
    to the caller and no longer to [former]. *)
Theorem rematchReady_takes_any_session
    (st : state) (sid target former : string) :
  is_Some (sockets st !! sid) →
  is_Some (sockets st !! target) →
  former ≠ sid → former ≠ target → target ≠ sid →
  opponent_of st target = Some former →
  opponent_of st former = Some target →
  opponent_of (on_rematchReady sid (VStr target) st) sid = Some target ∧
  opponent_of (on_rematchReady sid (VStr target) st) target = Some sid ∧
  opponent_of (on_rematchReady sid (VStr target) st) former = Some target ∧
  opponent_of (on_rematchReady sid (VStr target) st) target ≠ Some former ∧
  (∀ other, other ≠ sid → other ≠ target →
     opponent_of (on_rematchReady sid (VStr target) st) other =
       opponent_of st other).
Proof.
  intros Hsid Htarget Hfs Hft Hts Htf Hf.
  destruct (opponent_of_on_rematchReady st sid target) as (H1 & H2 & H3);
    [done..|].
  split; [done|]. split; [done|]. split; [by rewrite H3|].
  split; [|done]. rewrite H2. congruence.
Qed.

Lemma rematchReady_takes_any_session_witness :
  reachable lobby_two_pairs ∧
  opponent_of lobby_two_pairs "A" = Some "B" ∧
  opponent_of (on_rematchReady "A" (VStr "C") lobby_two_pairs) "A" = Some "C" ∧
  opponent_of (on_rematchReady "A" (VStr "C") lobby_two_pairs) "C" = Some "A" ∧
  opponent_of (on_rematchReady "A" (VStr "C") lobby_two_pairs) "D" = Some "C" ∧
  opponent_of (on_rematchReady "A" (VStr "C") lobby_two_pairs) "C" ≠ Some "D" ∧
  (∀ other, other ≠ "A" → other ≠ "C" →
     opponent_of (on_rematchReady "A" (VStr "C") lobby_two_pairs) other =
       opponent_of lobby_two_pairs other).
Proof.
  split; [exact lobby_two_pairs_reachable|]. split; [reflexivity|].
  apply (rematchReady_takes_any_session lobby_two_pairs "A" "C" "D");
    solve [ by eexists | discriminate | reflexivity ].
Defined.

(** ** The rematch handshake *)

(** C4, as amended. When a session asks for a rematch while its opponent is
    connected and has already asked, both rematch flags are set to false,
    each of the two is again the other's opponent, the queue is untouched,
    and each of the two is sent one [rematchReady] notification that
    carries the other's id and no role. *)
Theorem second_rematch_request (st : state) (sid oid : string) (sock : socket) :
  sockets st !! sid = Some sock →
  opponent_ref sock = Some oid →
  is_Some (sockets st !! oid) →
  rematch_flag st oid = true →
  rematchRequests (on_requestRematch sid st) !! sid = Some false ∧
  rematchRequests (on_requestRematch sid st) !! oid = Some false ∧
  opponent_of (on_requestRematch sid st) sid = Some oid ∧
  opponent_of (on_requestRematch sid st) oid = Some sid ∧
  waitingPlayers (on_requestRematch sid st) = waitingPlayers st ∧
  outbox (on_requestRematch sid st) =
    outbox st ++ [(sid, rematchReady oid); (oid, rematchReady sid)].
Proof.
  intros Hs Hopp [o Ho] Hflag. unfold on_requestRematch.
  rewrite Hs, Hopp, Ho, Hflag.
  split; [apply lookup_insert_eq|]. split.
  { simpl. rewrite lookup_insert. case_decide; [done|apply lookup_insert_eq]. }
  split; [|split; [|split]].
  - destruct (decide (oid = sid)) as [->|Hne].
    + rewrite opponent_of_set_opponent_eq; [done|].
      apply set_opponent_is_Some. by eexists.
    + rewrite opponent_of_set_opponent_ne by done.
      rewrite opponent_of_set_opponent_eq; [done | by eexists].
  - rewrite opponent_of_set_opponent_eq; [done|].
    apply set_opponent_is_Some. by eexists.
  - done.
  - simpl. by rewrite <- app_assoc.
Qed.

Lemma second_rematch_request_witness :
  rematchRequests (on_requestRematch "A" lobby_B_asked) !! "A" = Some false ∧
  rematchRequests (on_requestRematch "A" lobby_B_asked) !! "B" = Some false ∧
  opponent_of (on_requestRematch "A" lobby_B_asked) "A" = Some "B" ∧
  opponent_of (on_requestRematch "A" lobby_B_asked) "B" = Some "A" ∧
  waitingPlayers (on_requestRematch "A" lobby_B_asked) =
    waitingPlayers lobby_B_asked ∧
  outbox (on_requestRematch "A" lobby_B_asked) =
    outbox lobby_B_asked ++ [("A", rematchReady "B"); ("B", rematchReady "A")].
Proof.
  apply (second_rematch_request lobby_B_asked "A" "B"
           {| opponent := Some "B"; move := VUndefined;
              walletAddress := VUndefined |});
    solve [ reflexivity | by eexists ].
Defined.

(** C4 as stated fails: on the second request of the handshake between A
    and B, the notifications sent are the two [rematchReady] ones and no
    [matchFound] with a role is among them. *)
Lemma second_rematch_request_assigns_no_role :
  opponent_of lobby_B_asked "A" = Some "B" ∧
  rematch_flag lobby_B_asked "B" = true ∧
  ¬ ∃ new to o r,
      outbox (on_requestRematch "A" lobby_B_asked) = outbox lobby_B_asked ++ new ∧
      (to, matchFound o r) ∈ new.
Proof.
  split; [reflexivity|]. split; [reflexivity|].
  intros (new & to & o & r & Heq & Hin).
  change (outbox (on_requestRematch "A" lobby_B_asked))
    with (outbox lobby_B_asked ++ [("A", rematchReady "B"); ("B", rematchReady "A")])
    in Heq.
  apply app_inv_head in Heq. subst new.
  repeat (apply elem_of_cons in Hin as [Hin|Hin]; [discriminate|]).
  by apply elem_of_nil in Hin.
Qed.

(** ** Moves *)

(** What [playerMove] does before its first [await], by cases on whether
    the round can be resolved. *)
Lemma on_playerMove_cases (st : state) (sid : string) (mv : value)
    (sock : socket) :
  sockets st !! sid = Some sock →
  to_string_throws mv = false →
  on_playerMove sid mv st =
    let st1 := set_move sid mv st in
    match opponent_ref sock with
    | Some oid =>
        match sockets st1 !! oid with
        | Some osock =>
            if truthy (move osock) then
              match determineWinner mv (move osock) with
              | draw =>
                  (reset_moves sid oid
                     (emit oid (gameResult "Draw")
                        (emit sid (gameResult "Draw") st1)), None)
              | win =>
                  (emit oid (gameResult "You lost!")
                     (emit sid (gameResult "You won!") st1),
                   Some (MintCall sid (walletAddress sock) sid oid))
              | lose =>
                  (emit sid (gameResult "You lost!")
                     (emit oid (gameResult "You won!") st1),
                   Some (MintCall oid (walletAddress osock) sid oid))
              end
            else (st1, None)
        | None => (st1, None)
        end
    | None => (st1, None)
    end.
Proof.
  intros Hs Hp. unfold on_playerMove.
  rewrite Hp, (lookup_set_move st sid sid), decide_True, Hs by done.
  reflexivity.
Qed.

(** A move that cannot be logged: the handler throws at its first
    statement. *)
Lemma on_playerMove_throws (st : state) (sid : string) (mv : value) :
  to_string_throws mv = true → on_playerMove sid mv st = (st, None).
Proof. intros Hp. unfold on_playerMove. by rewrite Hp. Qed.

Lemma is_rps_printable (m : value) :
  is_rps m = true → to_string_throws m = false.
Proof. intros H. by apply is_rps_cases in H as [-> | [-> | ->]]. Qed.






(** *** Which handlers touch [move] *)

Lemma same_moves_refl (st : state) : same_moves st st.
Proof. done. Qed.

Lemma same_moves_trans (st1 st2 st3 : state) :
  same_moves st1 st2 → same_moves st2 st3 → same_moves st1 st3.
Proof. intros H12 H23 x. by rewrite H23. Qed.

Lemma same_moves_set_opponent (a : string) (o : option string) (st : state) :
  same_moves st (set_opponent a o st).
Proof. intros x. apply move_of_set_opponent. Qed.

Lemma same_moves_pair_up (sid h : string) (rest : list string) (st : state) :
  same_moves st (pair_up sid h rest st).
Proof.
  intros x. unfold pair_up.
  by rewrite !move_of_emit, !move_of_set_opponent.
Qed.

Lemma same_moves_matchmaking (sid : string) (st : state) :
  same_moves st (matchmaking sid st).
Proof.
  destruct (matchmaking_cases sid st)
    as [[_ ->] | (stale & h & rest & _ & _ & _ & ->)].
  - done.
  - apply same_moves_pair_up.
Qed.

Lemma same_moves_on_readyToPlay (sid : string) (st : state) :
  same_moves st (on_readyToPlay sid st).
Proof.
  unfold on_readyToPlay. destruct (sockets st !! sid); [|done].
  apply same_moves_matchmaking.
Qed.

Lemma same_moves_on_rematchReady (sid : string) (v : value) (st : state) :
  same_moves st (on_rematchReady sid v st).
Proof.
  unfold on_rematchReady. destruct (sockets st !! sid); [|done].
  destruct (sockets_get st v) as [[oid o]|].
  - intros x. by rewrite !move_of_emit, !move_of_set_opponent.
  - destruct (to_string_throws v); [done|].
    eapply same_moves_trans; [|apply same_moves_matchmaking].
    intros x. by rewrite move_of_set_opponent.
Qed.

Lemma same_moves_on_requestRematch (sid : string) (st : state) :
  same_moves st (on_requestRematch sid st).
Proof.
  unfold on_requestRematch. destruct (sockets st !! sid) as [sock|]; [|done].
  destruct (opponent_ref sock) as [oid|]; [|done].
  destruct (sockets st !! oid).
  - destruct (rematch_flag st oid); [|done].
    intros x. by rewrite !move_of_set_opponent.
  - eapply same_moves_trans; [|apply same_moves_matchmaking].
    intros x. by rewrite move_of_set_opponent.
Qed.

Lemma same_moves_on_findNewOpponent (sid : string) (st : state) :
  same_moves st (on_findNewOpponent sid st).
Proof.
  unfold on_findNewOpponent. destruct (sockets st !! sid) as [sock|]; [|done].
  eapply same_moves_trans; [|apply same_moves_matchmaking].
  destruct (opponent_ref sock) as [oid|]; [|done].
  eapply same_moves_trans;
    [|intros x; apply (move_of_set_opponent _ sid x None)].
  destruct (sockets st !! oid); [|done].
  eapply same_moves_trans; [|apply same_moves_matchmaking].
  intros x.
  by rewrite move_of_delete_flag, move_of_set_opponent, move_of_emit.
Qed.

Lemma move_of_reset_moves_l (a b : string) (st : state) :
  is_Some (sockets st !! a) → move_of (reset_moves a b st) a = Some VNull.
Proof.
  intros Ha. unfold reset_moves. destruct (decide (b = a)) as [->|Hne].
  - apply move_of_set_move_eq. by apply set_move_is_Some.
  - rewrite move_of_set_move_ne by done. by apply move_of_set_move_eq.
Qed.

Lemma move_of_reset_moves_r (a b : string) (st : state) :
  is_Some (sockets st !! b) → move_of (reset_moves a b st) b = Some VNull.
Proof.
  intros Hb. unfold reset_moves.
  apply move_of_set_move_eq. by apply set_move_is_Some.
Qed.

Lemma determineWinner_same (mv : value) : determineWinner mv mv = draw.
Proof. unfold determineWinner, strict_eq. by rewrite bool_decide_eq_true_2. Qed.

(** C5, as amended. When a move completes a round, the [move] fields of the
    two sessions are reset: by the end of the handler on a draw, and on a
    decisive outcome only when the reward call has settled (until then both
    keep the moves of the round), in whatever state the server is by then,
    for each of the two that is still connected.  Pairing does not reset
    them: [matchmaking] and the [readyToPlay], [rematchReady],
    [requestRematch] and [findNewOpponent] handlers leave every session's
    [move] as it was.  (A move that cannot be logged completes no round:
    the handler throws before it stores the move, and nothing changes.) *)
Theorem moves_reset_by_resolution_only
    (st : state) (sid oid : string) (mv : value) (sock osock : socket) :
  sockets st !! sid = Some sock →
  opponent_ref sock = Some oid →
  sockets (set_move sid mv st) !! oid = Some osock →
  truthy (move osock) = true →
  (to_string_throws mv = false →
   match determineWinner mv (move osock) with
   | draw =>
       (on_playerMove sid mv st).2 = None ∧
       move_of (on_playerMove sid mv st).1 sid = Some VNull ∧
       move_of (on_playerMove sid mv st).1 oid = Some VNull
   | _ =>
       ∃ c,
         (on_playerMove sid mv st).2 = Some c ∧
         move_of (on_playerMove sid mv st).1 sid = Some mv ∧
         move_of (on_playerMove sid mv st).1 oid = Some (move osock) ∧
         ∀ r later,
           (is_Some (sockets later !! sid) →
            move_of (playerMove_settled c r later) sid = Some VNull) ∧
           (is_Some (sockets later !! oid) →
            move_of (playerMove_settled c r later) oid = Some VNull)
   end)
  ∧ (∀ caller v s,
       same_moves s (matchmaking caller s) ∧
       same_moves s (on_readyToPlay caller s) ∧
       same_moves s (on_rematchReady caller v s) ∧
       same_moves s (on_requestRematch caller s) ∧
       same_moves s (on_findNewOpponent caller s))
  ∧ (to_string_throws mv = true → on_playerMove sid mv st = (st, None)).
Proof.
  intros Hs Hopp Ho Htruthy. split; [|split; [|apply on_playerMove_throws]].
  - intros Hp.
    assert (Hsid : is_Some (sockets (set_move sid mv st) !! sid)).
    { apply set_move_is_Some. by eexists. }
    assert (Hmv : move_of (set_move sid mv st) sid = Some mv).
    { apply move_of_set_move_eq. by eexists. }
    assert (Hmo : move_of (set_move sid mv st) oid = Some (move osock)).
    { unfold move_of. by rewrite Ho. }
    assert (Hsettle : ∀ w a r later,
      (is_Some (sockets later !! sid) →
       move_of (playerMove_settled (MintCall w a sid oid) r later) sid
         = Some VNull) ∧
      (is_Some (sockets later !! oid) →
       move_of (playerMove_settled (MintCall w a sid oid) r later) oid
         = Some VNull)).
    { intros w a r later. unfold playerMove_settled. simpl.
      split; intros H;
        [apply move_of_reset_moves_l | apply move_of_reset_moves_r]; done. }
    rewrite (on_playerMove_cases st sid mv sock Hs Hp). cbv zeta.
    rewrite Hopp, Ho, Htruthy.
    destruct (determineWinner mv (move osock)); simpl.
    + split; [done|]. split.
      * apply move_of_reset_moves_l. done.
      * apply move_of_reset_moves_r. by eexists.
    + eexists. split; [reflexivity|]. by rewrite !move_of_emit.
    + eexists. split; [reflexivity|]. by rewrite !move_of_emit.
  - intros caller v s.
    split; [apply same_moves_matchmaking|].
    split; [apply same_moves_on_readyToPlay|].
    split; [apply same_moves_on_rematchReady|].
    split; [apply same_moves_on_requestRematch|].
    apply same_moves_on_findNewOpponent.
Qed.

Lemma moves_reset_by_resolution_only_witness :
  (∃ c,
     (on_playerMove "A" scissors lobby_B_played).2 = Some c ∧
     move_of (on_playerMove "A" scissors lobby_B_played).1 "A" = Some scissors ∧
     move_of (on_playerMove "A" scissors lobby_B_played).1 "B" = Some rock ∧
     ∀ r later,
       (is_Some (sockets later !! "A") →
        move_of (playerMove_settled c r later) "A" = Some VNull) ∧
       (is_Some (sockets later !! "B") →
        move_of (playerMove_settled c r later) "B" = Some VNull))
  ∧ ∀ caller v s,
      same_moves s (matchmaking caller s) ∧
      same_moves s (on_readyToPlay caller s) ∧
      same_moves s (on_rematchReady caller v s) ∧
      same_moves s (on_requestRematch caller s) ∧
      same_moves s (on_findNewOpponent caller s).
Proof.
  destruct (moves_reset_by_resolution_only lobby_B_played "A" "B" scissors
              {| opponent := Some "B"; move := VUndefined;
                 walletAddress := VUndefined |}
              {| opponent := Some "A"; move := rock;
                 walletAddress := VUndefined |}
              eq_refl eq_refl eq_refl eq_refl)
    as (H1 & H2 & _).
  split; [exact (H1 eq_refl) | exact H2].
Defined.

(** C5 as stated fails: A's move against B is still stored after A has
    been paired with C, and it decides the round as soon as C plays. *)
Lemma stored_move_survives_repairing :
  opponent_of (on_playerMove "A" rock lobby_A_B).1 "A" = Some "B" ∧
  opponent_of lobby_A_repaired "A" = Some "C" ∧
  opponent_of lobby_A_repaired "C" = Some "A" ∧
  move_of lobby_A_repaired "A" = Some rock ∧
  outbox (on_playerMove "C" scissors lobby_A_repaired).1 =
    outbox lobby_A_repaired
      ++ [("A", gameResult "You won!"); ("C", gameResult "You lost!")].
Proof. repeat split. Qed.

(** ** The lobby invariant *)

Lemma ref_of_is_Some (st : state) (a o : string) :
  ref_of st a = Some o → is_Some (sockets st !! a).
Proof. unfold ref_of. destruct (sockets st !! a); [by eexists|done]. Qed.

Lemma ref_of_emit (st : state) (to x : string) (ev : event) :
  ref_of (emit to ev st) x = ref_of st x.
Proof. done. Qed.

Lemma ref_of_set_opponent_ne (st : state) (a b : string) (o : option string) :
  a ≠ b → ref_of (set_opponent a o st) b = ref_of st b.
Proof.
  intros Hne. unfold ref_of. by rewrite lookup_set_opponent, decide_False.
Qed.

Lemma ref_of_set_opponent_None (st : state) (a : string) :
  ref_of (set_opponent a None st) a = None.
Proof.
  unfold ref_of. rewrite lookup_set_opponent, decide_True by done.
  by destruct (sockets st !! a).
Qed.

Lemma ref_of_set_opponent_Some (st : state) (a h : string) :
  is_Some (sockets st !! a) → h ≠ "" →
  ref_of (set_opponent a (Some h) st) a = Some h.
Proof.
  intros [s Hs] Hh. unfold ref_of.
  rewrite lookup_set_opponent, decide_True, Hs by done. simpl.
  unfold opponent_ref. simpl.
  destruct (String.eqb_spec h ""); [done|done].
Qed.

Lemma ref_of_pair_up (sid h x : string) (rest : list string) (st : state) :
  is_Some (sockets st !! sid) → is_Some (sockets st !! h) →
  sid ≠ "" → h ≠ "" → sid ≠ h →
  ref_of (pair_up sid h rest st) x =
    if decide (x = sid) then Some h
    else if decide (x = h) then Some sid
    else ref_of st x.
Proof.
  intros Hsid Hh Hs0 Hh0 Hne. unfold pair_up.
  rewrite !ref_of_emit.
  repeat case_decide; subst.
  - rewrite ref_of_set_opponent_ne by done.
    by apply ref_of_set_opponent_Some.
  - apply ref_of_set_opponent_Some; [|done]. by apply set_opponent_is_Some.
  - by rewrite !ref_of_set_opponent_ne by done.
Qed.

(** [matchmaking] keeps the invariant when its caller is connected and is
    neither queued nor paired. *)
Lemma lobby_inv_matchmaking (sid : string) (st : state) :
  lobby_inv st →
  is_Some (sockets st !! sid) →
  sid ∉ waitingPlayers st →
  ref_of st sid = None →
  lobby_inv (matchmaking sid st).
Proof.
  intros [Hnd Hconn Hunp Hsym Hids] Hsid Hnq Hfree.
  assert (Hsid0 : sid ≠ "").
  { intros ->. rewrite Hids in Hsid. by destruct Hsid. }
  destruct (waitingPlayers st) as [|h rest] eqn:Hq.
  - rewrite matchmaking_unfold, Hq. split; simpl.
    + apply NoDup_singleton.
    + intros x ->%list_elem_of_singleton. done.
    + intros x ->%list_elem_of_singleton. done.
    + done.
    + done.
  - assert (Hh : is_Some (sockets st !! h)) by (apply Hconn; left).
    assert (Hh0 : h ≠ "").
    { intros ->. rewrite Hids in Hh. by destruct Hh. }
    assert (Hne : sid ≠ h).
    { intros ->. apply Hnq. left. }
    apply NoDup_cons in Hnd as [Hhrest Hnd].
    rewrite (matchmaking_head_connected sid h rest) by done.
    split.
    + done.
    + intros x Hx. apply pair_up_is_Some, Hconn. by right.
    + intros x Hx. rewrite ref_of_pair_up by done.
      rewrite decide_False by (intros ->; apply Hnq; by right).
      rewrite decide_False by (by intros ->).
      apply Hunp. by right.
    + intros a o. rewrite !ref_of_pair_up by done.
      destruct (decide (a = sid)) as [->|Ha].
      { intros [= <-]. split; [done|].
        by rewrite decide_False, decide_True by done. }
      destruct (decide (a = h)) as [->|Ha'].
      { intros [= <-]. split; [done|]. by rewrite decide_True. }
      intros Hao. destruct (Hsym a o Hao) as [Hneq Hoa]. split; [done|].
      rewrite decide_False by (intros ->; congruence).
      rewrite decide_False; [done|].
      intros ->. rewrite (Hunp h) in Hoa; [done | left].
    + unfold pair_up. simpl. by rewrite !lookup_alter_None.
Qed.

Lemma lobby_inv_initial : lobby_inv initial.
Proof.
  split; simpl.
  - constructor.
  - by intros x ?%elem_of_nil.
  - by intros x ?%elem_of_nil.
  - intros a o. unfold ref_of. simpl. by rewrite lookup_empty.
  - apply lookup_empty.
Qed.

Lemma ref_of_on_connection (sid x : string) (st : state) :
  ref_of (on_connection sid st) x =
    if decide (x = sid) then None else ref_of st x.
Proof.
  unfold ref_of, on_connection. simpl. rewrite lookup_insert.
  repeat case_decide; subst; done.
Qed.

Lemma lobby_inv_on_connection (sid : string) (st : state) :
  lobby_inv st → sid ≠ "" → sockets st !! sid = None →
  lobby_inv (on_connection sid st).
Proof.
  intros [Hnd Hconn Hunp Hsym Hids] Hsid0 Hfresh. split.
  - done.
  - intros x Hx. unfold on_connection. simpl.
    rewrite lookup_insert. case_decide; [by eexists | by apply Hconn].
  - intros x Hx. rewrite ref_of_on_connection. case_decide; [done|by apply Hunp].
  - intros a o. rewrite !ref_of_on_connection.
    case_decide; [done|]. intros Hao.
    destruct (Hsym a o Hao) as [Hne Hoa]. split; [done|].
    rewrite decide_False; [done|]. intros ->.
    apply ref_of_is_Some in Hoa. rewrite Hfresh in Hoa. by destruct Hoa.
  - unfold on_connection. simpl. by rewrite lookup_insert_ne.
Qed.

Lemma ref_of_closed (sid x : string) (st : state) :
  ref_of (closed sid st) x = if decide (x = sid) then None else ref_of st x.
Proof.
  unfold ref_of, closed. simpl. rewrite lookup_delete.
  repeat case_decide; subst; done.
Qed.

Lemma lookup_closed_ne (sid x : string) (st : state) :
  x ≠ sid → sockets (closed sid st) !! x = sockets st !! x.
Proof. intros Hne. unfold closed. simpl. by rewrite lookup_delete_ne. Qed.

Lemma elem_of_closed (sid x : string) (st : state) :
  x ∈ waitingPlayers (closed sid st) ↔ x ≠ sid ∧ x ∈ waitingPlayers st.
Proof.
  exact (list_elem_of_filter (λ id, id ≠ sid) (waitingPlayers st) x).
Qed.

Lemma lobby_inv_closed_idle (sid : string) (st : state) :
  lobby_inv st → ref_of st sid = None → lobby_inv (closed sid st).
Proof.
  intros [Hnd Hconn Hunp Hsym Hids] Hfree. split.
  - unfold closed. simpl. by apply NoDup_filter.
  - intros x [Hne Hx]%elem_of_closed.
    rewrite lookup_closed_ne by done. by apply Hconn.
  - intros x [Hne Hx]%elem_of_closed.
    rewrite ref_of_closed, decide_False by done. by apply Hunp.
  - intros a o. rewrite !ref_of_closed. case_decide; [done|]. intros Hao.
    destruct (Hsym a o Hao) as [Hne Hoa]. split; [done|].
    rewrite decide_False; [done|]. intros ->. congruence.
  - unfold closed. simpl. rewrite lookup_delete. by case_decide.
Qed.

Lemma lobby_inv_closed_paired (sid oid : string) (st : state) :
  lobby_inv st → ref_of st sid = Some oid →
  lobby_inv (set_opponent oid None (closed sid st)) ∧
  is_Some (sockets (closed sid st) !! oid) ∧
  oid ∉ waitingPlayers (closed sid st).
Proof.
  intros [Hnd Hconn Hunp Hsym Hids] Hpaired.
  destruct (Hsym sid oid Hpaired) as [Hne Hback].
  assert (Hoq : oid ∉ waitingPlayers st).
  { intros Hin. rewrite (Hunp oid Hin) in Hback. done. }
  split; [|split].
  - split.
    + unfold closed. simpl. by apply NoDup_filter.
    + intros x [Hx Hin]%elem_of_closed.
      apply set_opponent_is_Some. rewrite lookup_closed_ne by done.
      by apply Hconn.
    + intros x [Hx Hin]%elem_of_closed.
      rewrite ref_of_set_opponent_ne by (intros ->; done).
      rewrite ref_of_closed, decide_False by done. by apply Hunp.
    + intros a o.
      destruct (decide (a = oid)) as [->|Ha].
      { by rewrite ref_of_set_opponent_None. }
      rewrite ref_of_set_opponent_ne by done.
      rewrite ref_of_closed. case_decide as Has; [done|]. intros Hao.
      destruct (Hsym a o Hao) as [Hneq Hoa]. split; [done|].
      assert (o ≠ oid) by (intros ->; congruence).
      assert (o ≠ sid) by (intros ->; congruence).
      rewrite ref_of_set_opponent_ne by done.
      by rewrite ref_of_closed, decide_False.
    + simpl. rewrite lookup_alter_None, lookup_delete. by case_decide.
  - rewrite lookup_closed_ne by done. by eapply ref_of_is_Some.
  - rewrite elem_of_closed. tauto.
Qed.

Lemma lobby_inv_same (st st' : state) :
  sockets st' = sockets st → waitingPlayers st' = waitingPlayers st →
  lobby_inv st → lobby_inv st'.
Proof.
  intros Hs Hq [Hnd Hconn Hunp Hsym Hids].
  split; unfold ref_of in *; rewrite ?Hs, ?Hq; done.
Qed.

Lemma lobby_inv_on_disconnect (sid : string) (st : state) :
  lobby_inv st → is_Some (sockets st !! sid) → lobby_inv (on_disconnect sid st).
Proof.
  intros Hinv [sock Hs]. unfold on_disconnect. rewrite Hs.
  unfold disconnect_handler. fold (closed sid st).
  apply (lobby_inv_same
           match opponent_ref sock with
           | Some oid =>
               match sockets (closed sid st) !! oid with
               | Some _ =>
                   matchmaking oid
                     (delete_flag oid
                        (set_opponent oid None
                           (emit oid
                              (opponentDisconnected
                                 "Your opponent has disconnected.")
                              (closed sid st))))
               | None => closed sid st
               end
           | None => closed sid st
           end); [done..|].
  assert (Href : ref_of st sid = opponent_ref sock).
  { unfold ref_of. by rewrite Hs. }
  destruct (opponent_ref sock) as [oid|].
  - destruct (lobby_inv_closed_paired sid oid st Hinv Href)
      as (Hinv' & [o Ho] & Hoq).
    rewrite Ho. apply lobby_inv_matchmaking.
    + eapply lobby_inv_same; [| |exact Hinv']; done.
    + apply (set_opponent_is_Some (closed sid st)). by eexists.
    + done.
    + apply (ref_of_set_opponent_None (closed sid st)).
  - by apply lobby_inv_closed_idle.
Qed.

Lemma reachable_wb_inv (st : state) : reachable_wb st → lobby_inv st.
Proof.
  induction 1 as [|e st Hreach IH Hdel Hwb]; [apply lobby_inv_initial|].
  destruct e as [sid|sid|sid]; simpl in *.
  - destruct Hdel. by apply lobby_inv_on_connection.
  - unfold on_readyToPlay. destruct Hdel as [s Hs]. rewrite Hs.
    destruct Hwb as [Hq Hp]. apply lobby_inv_matchmaking; [done|by eexists|done|].
    unfold paired in Hp. unfold ref_of.
    destruct (sockets st !! sid ≫= opponent_ref); [|done].
    exfalso. apply Hp. by eexists.
  - by apply lobby_inv_on_disconnect.
Qed.

Lemma reachable_wb_run (es : list lobby_event) :
  ∀ st, reachable_wb st → well_behaved_run es st → reachable_wb (run es st).
Proof.
  induction es as [|e es IH]; intros st Hst Hes; [done|].
  destruct Hes as (He & Hwb & Hes). apply IH; [|done]. by constructor.
Qed.

Lemma ref_of_pair_up_any (sid h x : string) (rest : list string) (st : state) :
  connected st sid → connected st h → sid ≠ "" → h ≠ "" →
  ref_of (pair_up sid h rest st) x =
    if decide (x = h) then Some sid
    else if decide (x = sid) then Some h
    else ref_of st x.
Proof.
  intros Hsid Hh Hs0 Hh0. unfold pair_up. rewrite !ref_of_emit.
  destruct (decide (x = h)) as [->|Hxh].
  { apply ref_of_set_opponent_Some; [|done]. by apply set_opponent_is_Some. }
  rewrite ref_of_set_opponent_ne by done.
  destruct (decide (x = sid)) as [->|Hxs].
  { by apply ref_of_set_opponent_Some. }
  by rewrite ref_of_set_opponent_ne.
Qed.

Lemma pairing_inv_same (st st' : state) :
  sockets st' = sockets st → waitingPlayers st' = waitingPlayers st →
  pairing_inv st → pairing_inv st'.
Proof.
  intros Hs Hq [Hlen Hconn Hunp Hsym Hids].
  split; unfold ref_of, connected in *; rewrite ?Hs, ?Hq; done.
Qed.

Lemma tracks_same (st st' : state) (P : string → Prop) :
  sockets st' = sockets st → waitingPlayers st' = waitingPlayers st →
  tracks st P → tracks st' P.
Proof.
  intros Hs Hq Ht x. unfold ref_of. rewrite Hs, Hq. apply Ht.
Qed.

Lemma pairing_inv_initial : pairing_inv initial ∧ tracks initial (.∈ (∅ : gset string)).
Proof.
  split.
  - split; simpl.
    + lia.
    + by intros x ?%elem_of_nil.
    + by intros x ?%elem_of_nil.
    + intros a o. unfold ref_of. simpl. by rewrite lookup_empty.
    + apply lookup_empty.
  - intros x. unfold ref_of. simpl. rewrite lookup_empty. simpl. split.
    + by intros ?%not_elem_of_empty.
    + intros [?%elem_of_nil | []]; done.
Qed.

(** [matchmaking] for a connected caller without an opponent. *)
Lemma pairing_inv_matchmaking (sid : string) (st : state)
    (P P' : string → Prop) :
  pairing_inv st → tracks st P →
  connected st sid → ref_of st sid = None →
  (∀ x, P' x ↔ x = sid ∨ P x) →
  pairing_inv (matchmaking sid st) ∧ tracks (matchmaking sid st) P'.
Proof.
  intros [Hlen Hconn Hunp Hsym Hids] Ht Hsid Hfree HP'.
  assert (Hsid0 : sid ≠ "").
  { intros ->. destruct Hsid as [s Hs]. by rewrite Hids in Hs. }
  destruct (waitingPlayers st) as [|h rest] eqn:Hq.
  - rewrite matchmaking_unfold, Hq. split.
    + split; simpl.
      * lia.
      * by intros x ->%list_elem_of_singleton.
      * by intros x ->%list_elem_of_singleton.
      * done.
      * done.
    + intros x. rewrite HP', (Ht x), Hq. simpl.
      change (ref_of (emit sid waitingForOpponent (set_waiting [sid] st)) x)
        with (ref_of st x).
      rewrite list_elem_of_singleton. split.
      * intros [-> | [?%elem_of_nil | Hp]]; [by left | done | by right].
      * intros [-> | Hp]; [by left | right; by right].
  - destruct rest; [|simpl in Hlen; lia].
    assert (Hh : connected st h) by (apply Hconn; left).
    assert (Hh0 : h ≠ "").
    { intros ->. destruct Hh as [s Hs]. by rewrite Hids in Hs. }
    assert (Hhfree : ref_of st h = None) by (apply Hunp; left).
    rewrite (matchmaking_head_connected sid h []) by done.
    split.
    + split.
      * simpl. lia.
      * by intros x ?%elem_of_nil.
      * by intros x ?%elem_of_nil.
      * intros a o. rewrite !ref_of_pair_up_any by done.
        destruct (decide (a = h)) as [->|Hah].
        { intros [= <-]. destruct (decide (sid = h)) as [->|Hne]; [done|].
          by rewrite decide_True. }
        destruct (decide (a = sid)) as [->|Has].
        { intros [= <-]. by rewrite decide_True. }
        intros Hao. pose proof (Hsym a o Hao) as Hoa.
        rewrite decide_False by (intros ->; congruence).
        rewrite decide_False by (intros ->; congruence). done.
      * unfold pair_up. simpl. by rewrite !lookup_alter_None.
    + intros x. rewrite HP', (Ht x), Hq, ref_of_pair_up_any by done.
      change (waitingPlayers (pair_up sid h [] st)) with (@nil string).
      rewrite list_elem_of_singleton. split.
      * intros [-> | [-> | Hp]]; right.
        -- destruct (decide (sid = h)); [done|]. by rewrite decide_True.
        -- by rewrite decide_True.
        -- repeat case_decide; done.
      * intros [?%elem_of_nil | Hp]; [done|].
        destruct (decide (x = h)) as [->|]; [right; by left|].
        destruct (decide (x = sid)) as [->|]; [by left|].
        right. by right.
Qed.

Lemma pairing_inv_on_connection (sid : string) (st : state)
    (P P' : string → Prop) :
  pairing_inv st → tracks st P →
  sid ≠ "" → sockets st !! sid = None →
  (∀ x, P' x ↔ x ≠ sid ∧ P x) →
  pairing_inv (on_connection sid st) ∧ tracks (on_connection sid st) P'.
Proof.
  intros [Hlen Hconn Hunp Hsym Hids] Ht Hsid0 Hfresh HP'.
  assert (Hnq : sid ∉ waitingPlayers st).
  { intros Hin. destruct (Hconn sid Hin) as [s Hs]. congruence. }
  assert (Href : ref_of st sid = None).
  { unfold ref_of. by rewrite Hfresh. }
  split.
  - split.
    + done.
    + intros x Hx. unfold connected, on_connection. simpl.
      apply lookup_insert_is_Some'. right. by apply Hconn.
    + intros x Hx. rewrite ref_of_on_connection.
      case_decide; [done | by apply Hunp].
    + intros a o. rewrite !ref_of_on_connection.
      case_decide; [done|]. intros Hao.
      pose proof (Hsym a o Hao) as Hoa.
      rewrite decide_False; [done|]. intros ->. congruence.
    + unfold on_connection. simpl. by rewrite lookup_insert_ne.
  - intros x. rewrite HP', (Ht x), ref_of_on_connection.
    change (waitingPlayers (on_connection sid st)) with (waitingPlayers st).
    destruct (decide (x = sid)) as [->|Hne].
    + rewrite Href. split; [tauto|]. intros [Hin | []]; done.
    + tauto.
Qed.

Lemma pairing_inv_closed (sid : string) (st : state) (P P' : string → Prop) :
  pairing_inv st → tracks st P →
  ref_of st sid = None ∨ ref_of st sid = Some sid →
  (∀ x, P' x ↔ x ≠ sid ∧ P x) →
  pairing_inv (closed sid st) ∧ tracks (closed sid st) P'.
Proof.
  intros [Hlen Hconn Hunp Hsym Hids] Ht Hself HP'. split.
  - split.
    + unfold closed. simpl.
      etrans; [apply (length_filter (λ id, id ≠ sid))|done].
    + intros x [Hne Hx]%elem_of_closed. unfold connected.
      rewrite lookup_closed_ne by done. by apply Hconn.
    + intros x [Hne Hx]%elem_of_closed.
      rewrite ref_of_closed, decide_False by done. by apply Hunp.
    + intros a o. rewrite !ref_of_closed. case_decide; [done|]. intros Hao.
      pose proof (Hsym a o Hao) as Hoa.
      rewrite decide_False; [done|]. intros ->.
      destruct Hself; congruence.
    + unfold closed. simpl. rewrite lookup_delete. by case_decide.
  - intros x. rewrite HP', (Ht x), elem_of_closed, ref_of_closed.
    destruct (decide (x = sid)) as [->|Hne].
    + split; [tauto|]. intros [[] | []]; done.
    + tauto.
Qed.

Lemma pairing_inv_closed_paired (sid oid : string) (st : state)
    (P P' : string → Prop) :
  pairing_inv st → tracks st P →
  ref_of st sid = Some oid → oid ≠ sid →
  (∀ x, P' x ↔ x ≠ sid ∧ P x) →
  pairing_inv (set_opponent oid None (closed sid st)) ∧
  tracks (set_opponent oid None (closed sid st)) (λ x, x ≠ oid ∧ P' x) ∧
  connected (closed sid st) oid ∧
  P' oid.
Proof.
  intros [Hlen Hconn Hunp Hsym Hids] Ht Hpaired Hne HP'.
  pose proof (Hsym sid oid Hpaired) as Hback.
  assert (Hoq : oid ∉ waitingPlayers st).
  { intros Hin. rewrite (Hunp oid Hin) in Hback. done. }
  assert (Href : ∀ x,
    ref_of (set_opponent oid None (closed sid st)) x =
      if decide (x = oid) then None
      else if decide (x = sid) then None else ref_of st x).
  { intros x. destruct (decide (x = oid)) as [->|Hx].
    - apply ref_of_set_opponent_None.
    - rewrite ref_of_set_opponent_ne by done. apply ref_of_closed. }
  split; [|split; [|split]].
  - split.
    + unfold closed. simpl.
      etrans; [apply (length_filter (λ id, id ≠ sid))|done].
    + intros x [Hx Hin]%elem_of_closed.
      apply set_opponent_is_Some. rewrite lookup_closed_ne by done.
      by apply Hconn.
    + intros x [Hx Hin]%elem_of_closed. rewrite Href.
      repeat case_decide; try done. by apply Hunp.
    + intros a o. rewrite !Href.
      case_decide; [done|]. case_decide; [done|]. intros Hao.
      pose proof (Hsym a o Hao) as Hoa.
      rewrite decide_False by (intros ->; congruence).
      rewrite decide_False by (intros ->; congruence). done.
    + simpl. rewrite lookup_alter_None, lookup_delete. by case_decide.
  - intros x. rewrite HP', (Ht x), Href.
    change (waitingPlayers (set_opponent oid None (closed sid st)))
      with (waitingPlayers (closed sid st)).
    rewrite elem_of_closed.
    destruct (decide (x = oid)) as [->|Hxo].
    { split; [tauto|]. intros [[_ Hin] | []]; done. }
    destruct (decide (x = sid)) as [->|Hxs].
    { split; [tauto|]. intros [[] | []]; done. }
    tauto.
  - unfold connected. rewrite lookup_closed_ne by done.
    by eapply ref_of_is_Some.
  - apply HP'. split; [done|]. apply Ht. right. by rewrite Hback.
Qed.

Lemma pairing_inv_on_disconnect (sid : string) (st : state)
    (P P' : string → Prop) :
  pairing_inv st → tracks st P →
  connected st sid →
  (∀ x, P' x ↔ x ≠ sid ∧ P x) →
  pairing_inv (on_disconnect sid st) ∧ tracks (on_disconnect sid st) P'.
Proof.
  intros Hinv Ht [sock Hs] HP'. unfold on_disconnect. rewrite Hs.
  unfold disconnect_handler. fold (closed sid st). cbv zeta.
  assert (Href : ref_of st sid = opponent_ref sock).
  { unfold ref_of. by rewrite Hs. }
  destruct (opponent_ref sock) as [oid|] eqn:Hopp.
  - destruct (decide (oid = sid)) as [->|Hne].
    + assert (Hgone : sockets (closed sid st) !! sid = None).
      { unfold closed. simpl. apply lookup_delete_eq. }
      rewrite Hgone.
      destruct (pairing_inv_closed sid st P P') as [H1 H2]; auto.
      split; [by eapply pairing_inv_same; [| |exact H1]|].
      by eapply tracks_same; [| |exact H2].
    + destruct (pairing_inv_closed_paired sid oid st P P')
        as (H1 & H2 & [o Ho] & HPo); [done..|].
      rewrite Ho.
      set (st1 := delete_flag oid (set_opponent oid None
        (emit oid (opponentDisconnected "Your opponent has disconnected.")
           (closed sid st)))).
      destruct (pairing_inv_matchmaking oid st1 (λ x, x ≠ oid ∧ P' x) P')
        as [H3 H4].
      * by eapply pairing_inv_same; [| |exact H1].
      * by eapply tracks_same; [| |exact H2].
      * apply (set_opponent_is_Some (closed sid st)). by eexists.
      * apply (ref_of_set_opponent_None (closed sid st)).
      * intros x. destruct (decide (x = oid)) as [->|]; [tauto|tauto].
      * split; [by eapply pairing_inv_same; [| |exact H3]|].
        by eapply tracks_same; [| |exact H4].
  - destruct (pairing_inv_closed sid st P P') as [H1 H2]; auto.
    split; [by eapply pairing_inv_same; [| |exact H1]|].
    by eapply tracks_same; [| |exact H2].
Qed.

Lemma reachable_unpaired_inv (st : state) (R : gset string) :
  reachable_unpaired st R → pairing_inv st ∧ tracks st (.∈ R).
Proof.
  induction 1 as [|e st R Hreach [IH1 IH2] Hdel Hup];
    [apply pairing_inv_initial|].
  destruct e as [sid|sid|sid]; simpl in *.
  - destruct Hdel.
    apply (pairing_inv_on_connection sid st (.∈ R)); [done..|].
    intros x. rewrite elem_of_difference, elem_of_singleton. tauto.
  - unfold on_readyToPlay. destruct Hdel as [s Hs]. rewrite Hs.
    apply (pairing_inv_matchmaking sid st (.∈ R)); [done | done | by eexists | |].
    + unfold paired in Hup. fold (ref_of st sid) in Hup.
      destruct (ref_of st sid); [|done]. exfalso. apply Hup. by eexists.
    + intros x. rewrite elem_of_union, elem_of_singleton. tauto.
  - apply (pairing_inv_on_disconnect sid st (.∈ R)); [done..|].
    intros x. rewrite elem_of_difference, elem_of_singleton. tauto.
Qed.

(** C7, as amended. In every state reached by connections, [readyToPlay]
    messages and disconnections in which no session sends [readyToPlay]
    while it has an opponent: no session is queued and paired at once, and
    a session that has sent [readyToPlay] since it connected is connected
    and is in the queue if and only if it has no opponent. *)
Theorem queued_iff_unpaired_once_ready (st : state) (R : gset string)
    (sid : string) :
  reachable_unpaired st R →
  (queued st sid → ¬ paired st sid) ∧
  (sid ∈ R → connected st sid ∧ (queued st sid ↔ ¬ paired st sid)).
Proof.
  intros Hreach.
  apply reachable_unpaired_inv in Hreach as [[_ Hconn Hunp _ _] Ht].
  assert (H1 : queued st sid → ¬ paired st sid).
  { intros Hq. unfold paired. fold (ref_of st sid).
    rewrite Hunp by done. by intros []. }
  split; [done|]. intros HR. apply Ht in HR. split.
  - destruct HR as [Hq | [o Ho]]; [by apply Hconn|].
    by eapply ref_of_is_Some.
  - split; [done|]. intros Hnp. destruct HR as [Hq | Hp]; [done|].
    by destruct Hnp.
Qed.

Lemma reachable_unpaired_run (es : list lobby_event) :
  ∀ st R,
    reachable_unpaired st R → unpaired_run es st →
    reachable_unpaired (run es st) (ready_senders es R).
Proof.
  induction es as [|e es IH]; intros st R Hst Hes; [done|].
  destruct Hes as (He & Hup & Hes). apply IH; [|done]. by constructor.
Qed.

Lemma queued_iff_unpaired_once_ready_witness :
  ((queued lobby_pair_and_C "C" → ¬ paired lobby_pair_and_C "C") ∧
   connected lobby_pair_and_C "C" ∧
   (queued lobby_pair_and_C "C" ↔ ¬ paired lobby_pair_and_C "C"))
  ∧ ((queued lobby_C_ready_again "C" → ¬ paired lobby_C_ready_again "C") ∧
     connected lobby_C_ready_again "C" ∧
     (queued lobby_C_ready_again "C" ↔ ¬ paired lobby_C_ready_again "C")).
Proof.
  split.
  - destruct (queued_iff_unpaired_once_ready lobby_pair_and_C
                (ready_senders
                   [Connect "A"; ReadyToPlay "A"; Connect "B"; ReadyToPlay "B";
                    Connect "C"; ReadyToPlay "C"] ∅) "C") as [H1 H2].
    + apply reachable_unpaired_run; [constructor|].
      apply (bool_decide_unpack _). vm_compute. exact I.
    + split; [exact H1|]. apply H2.
      apply (bool_decide_unpack _). vm_compute. exact I.
  - destruct (queued_iff_unpaired_once_ready lobby_C_ready_again
                (ready_senders
                   [Connect "A"; ReadyToPlay "A"; Connect "B"; ReadyToPlay "B";
                    Connect "C"; ReadyToPlay "C"; ReadyToPlay "C"] ∅) "C")
      as [H1 H2].
    + apply reachable_unpaired_run; [constructor|].
      apply (bool_decide_unpack _). vm_compute. exact I.
    + split; [exact H1|]. apply H2.
      apply (bool_decide_unpack _). vm_compute. exact I.
Defined.

Lemma lobby_A_reachable : reachable lobby_A.
Proof. apply reachable_run; [constructor|]. by repeat split. Qed.

Lemma lobby_A_ready_again_reachable : reachable lobby_A_ready_again.
Proof.
  apply reachable_run.
  - apply reachable_run; [constructor|].
    repeat (split; [first [ by eexists | done ]|]). done.
  - split; [by eexists | done].
Qed.

(** C7 as stated fails, in both directions: after connecting, A has no
    opponent and is not in the queue; and when A, paired with B, sends
    [readyToPlay] again, A is in the queue while its opponent is B. *)
Lemma queue_membership_is_not_unpairedness :
  (reachable lobby_A ∧
   is_Some (sockets lobby_A !! "A") ∧
   ¬ paired lobby_A "A" ∧ ¬ queued lobby_A "A")
  ∧ (reachable lobby_A_ready_again ∧
     queued lobby_A_ready_again "A" ∧ paired lobby_A_ready_again "A" ∧
     opponent_of lobby_A_ready_again "A" = Some "B").
Proof.
  split.
  - split; [exact lobby_A_reachable|]. split; [by eexists|].
    split; apply (bool_decide_unpack _); vm_compute; exact I.
  - split; [exact lobby_A_ready_again_reachable|].
    split; [|split]; [apply (bool_decide_unpack _); vm_compute; exact I..|].
    reflexivity.
Qed.

(** * Beyond the claims: the whole server *)

(** ** Steps that keep the shape of the state *)

Lemma steady_refl (st : state) : steady st st.
Proof. split; [done|]. split; [by left | done]. Qed.

Lemma steady_trans (st1 st2 st3 : state) :
  steady st1 st2 → steady st2 st3 → steady st1 st3.
Proof.
  intros (Hc12 & Hf12 & Hq12) (Hc23 & Hf23 & Hq23). split; [|split].
  - intros x. by rewrite Hc23.
  - intros k Hk. destruct (Hf23 k Hk) as [Hk'|Hk'].
    + by apply Hf12.
    + right. by apply Hc12.
  - auto.
Qed.

Lemma steady_connected (st st' : state) (x : string) :
  steady st st' → connected st x → connected st' x.
Proof. intros (Hc & _ & _) Hx. by apply Hc. Qed.

Lemma steady_then_emit (st mid : state) (to : string) (ev : event) :
  steady st mid → steady st (emit to ev mid).
Proof.
  intros H. eapply steady_trans; [exact H|].
  split; [done|]. split; [by left | done].
Qed.

Lemma steady_altered (st : state) (f : socket → socket) (a : string) :
  steady st (with_sockets (alter f a) st).
Proof.
  assert (Hc : ∀ x, connected (with_sockets (alter f a) st) x ↔ connected st x).
  { intros x. apply lookup_alter_is_Some. }
  split; [done|]. split; [by left|].
  intros [Hlen Hq]. split; [done|].
  intros x Hx. apply Hc. by apply Hq.
Qed.

Lemma steady_then_set_opponent (st mid : state) (a : string) (o : option string) :
  steady st mid → steady st (set_opponent a o mid).
Proof. intros H. eapply steady_trans; [exact H | apply steady_altered]. Qed.

Lemma steady_then_set_move (st mid : state) (a : string) (v : value) :
  steady st mid → steady st (set_move a v mid).
Proof. intros H. eapply steady_trans; [exact H | apply steady_altered]. Qed.

Lemma steady_then_set_wallet (st mid : state) (a : string) (v : value) :
  steady st mid → steady st (set_wallet a v mid).
Proof. intros H. eapply steady_trans; [exact H | apply steady_altered]. Qed.

Lemma steady_then_reset_moves (st mid : state) (a b : string) :
  steady st mid → steady st (reset_moves a b mid).
Proof.
  intros H. unfold reset_moves.
  by apply steady_then_set_move, steady_then_set_move.
Qed.

Lemma steady_then_delete_flag (st mid : state) (a : string) :
  steady st mid → steady st (delete_flag a mid).
Proof.
  intros H. eapply steady_trans; [exact H|].
  split; [done|]. split; [|done].
  intros k Hk. left. unfold flagged, delete_flag in *. simpl in Hk.
  apply lookup_delete_is_Some in Hk. tauto.
Qed.

Lemma steady_then_set_flag (st mid : state) (a : string) (b : bool) :
  steady st mid → connected st a → steady st (set_flag a b mid).
Proof.
  intros H Ha. eapply steady_trans; [exact H|].
  split; [done|]. split; [|done].
  intros k Hk. unfold flagged, set_flag in *. simpl in Hk.
  apply lookup_insert_is_Some in Hk as [<- | [_ Hk]]; [|by left].
  right. by eapply steady_connected.
Qed.

Lemma matchmaking_connected (sid x : string) (st : state) :
  connected (matchmaking sid st) x ↔ connected st x.
Proof.
  destruct (matchmaking_cases sid st)
    as [[_ ->] | (stale & h & rest & _ & _ & _ & ->)]; [done|].
  apply pair_up_is_Some.
Qed.

Lemma matchmaking_flags (sid : string) (st : state) :
  rematchRequests (matchmaking sid st) = rematchRequests st.
Proof.
  by destruct (matchmaking_cases sid st)
    as [[_ ->] | (stale & h & rest & _ & _ & _ & ->)].
Qed.

(** The queue [matchmaking] leaves: the caller alone, or what followed the
    session it paired the caller with. *)
Lemma matchmaking_queue (sid : string) (st : state) :
  waitingPlayers (matchmaking sid st) = [sid]
  ∨ ∃ stale h rest,
      waitingPlayers st = stale ++ h :: rest ∧
      waitingPlayers (matchmaking sid st) = rest.
Proof.
  destruct (matchmaking_cases sid st)
    as [[_ ->] | (stale & h & rest & Hq & _ & _ & ->)]; [by left|].
  right. by exists stale, h, rest.
Qed.

Lemma steady_then_matchmaking (st mid : state) (sid : string) :
  steady st mid → connected st sid → steady st (matchmaking sid mid).
Proof.
  intros H Hsid. eapply steady_trans; [exact H|].
  apply (steady_connected _ _ _ H) in Hsid.
  split; [intros x; apply matchmaking_connected|]. split.
  { intros k Hk. left. unfold flagged in *. by rewrite matchmaking_flags in Hk. }
  intros [Hlen Hq]. unfold queue_inv.
  destruct (matchmaking_queue sid mid) as [Heq | (stale & h & rest & Hold & Heq)];
    rewrite Heq.
  - split; [done|]. intros x ->%list_elem_of_singleton.
    by apply matchmaking_connected.
  - rewrite Hold, length_app in Hlen. simpl in Hlen.
    destruct rest; [|simpl in Hlen; lia].
    split; [simpl; lia|]. by intros x ?%elem_of_nil.
Qed.

(** Chains of such steps, from the last statement of a handler back to its
    first. *)
Ltac steady :=
  repeat first
    [ assumption
    | apply steady_refl
    | apply steady_then_emit
    | apply steady_then_set_opponent
    | apply steady_then_set_move
    | apply steady_then_set_wallet
    | apply steady_then_reset_moves
    | apply steady_then_delete_flag
    | apply steady_then_set_flag
    | apply steady_then_matchmaking ].

Lemma steady_on_setWalletAddress (sid : string) (a : value) (st : state) :
  steady st (on_setWalletAddress sid a st).
Proof. unfold on_setWalletAddress. steady. Qed.

Lemma steady_on_readyToPlay (sid : string) (st : state) :
  steady st (on_readyToPlay sid st).
Proof.
  unfold on_readyToPlay. destruct (sockets st !! sid) eqn:Hs; [|steady].
  assert (connected st sid) by (by eexists). steady.
Qed.

Lemma steady_on_signal (sid : string) (to from sig : value) (st : state) :
  steady st (on_signal sid to from sig st).
Proof.
  unfold on_signal. destruct (sockets st !! sid); [|steady].
  destruct (to_string_throws from || to_string_throws to); [steady|].
  destruct (sockets_get st to) as [[rid r]|]; steady.
Qed.

Lemma steady_on_playerMove (sid : string) (mv : value) (st : state) :
  steady st (on_playerMove sid mv st).1.
Proof.
  unfold on_playerMove. cbv zeta.
  destruct (to_string_throws mv); [steady|].
  destruct (sockets (set_move sid mv st) !! sid) as [sock|]; [|steady].
  destruct (opponent_ref sock) as [oid|]; [|cbn [fst]; steady].
  destruct (sockets (set_move sid mv st) !! oid) as [osock|];
    [|cbn [fst]; steady].
  destruct (truthy (move osock)); [|cbn [fst]; steady].
  destruct (determineWinner (move sock) (move osock)); cbn [fst]; steady.
Qed.

Lemma steady_playerMove_settled (c : mint_call) (r : mint_result) (st : state) :
  steady st (playerMove_settled c r st).
Proof. unfold playerMove_settled. steady. Qed.

Lemma steady_on_requestRematch (sid : string) (st : state) :
  steady st (on_requestRematch sid st).
Proof.
  unfold on_requestRematch. cbv zeta.
  destruct (sockets st !! sid) as [sock|] eqn:Hs; [|steady].
  assert (connected st sid) by (by eexists).
  destruct (opponent_ref sock) as [oid|]; [|steady].
  destruct (sockets st !! oid) as [osock|] eqn:Ho; [|steady].
  assert (connected st oid) by (by eexists).
  destruct (rematch_flag st oid); steady.
Qed.

Lemma steady_on_rematchReady (sid : string) (v : value) (st : state) :
  steady st (on_rematchReady sid v st).
Proof.
  unfold on_rematchReady. cbv zeta.
  destruct (sockets st !! sid) as [sock|] eqn:Hs; [|steady].
  assert (connected st sid) by (by eexists).
  destruct (sockets_get st v) as [[oid o]|]; [steady|].
  destruct (to_string_throws v); steady.
Qed.

Lemma steady_on_findNewOpponent (sid : string) (st : state) :
  steady st (on_findNewOpponent sid st).
Proof.
  unfold on_findNewOpponent. cbv zeta.
  destruct (sockets st !! sid) as [sock|] eqn:Hs; [|steady].
  assert (connected st sid) by (by eexists).
  destruct (opponent_ref sock) as [oid|]; [|steady].
  destruct (sockets st !! oid) as [osock|] eqn:Ho; [|steady].
  assert (connected st oid) by (by eexists). steady.
Qed.

(** ** Connections opening and closing *)

Lemma invs_steady (st st' : state) :
  steady st st' → queue_inv st ∧ flags_inv st → queue_inv st' ∧ flags_inv st'.
Proof.
  intros (Hc & Hf & Hq) [Hqueue Hflags]. split; [auto|].
  intros k Hk. apply Hc. destruct (Hf k Hk); auto.
Qed.

Lemma invs_on_connection (sid : string) (st : state) :
  queue_inv st ∧ flags_inv st →
  queue_inv (on_connection sid st) ∧ flags_inv (on_connection sid st).
Proof.
  assert (Hc : ∀ x, connected st x → connected (on_connection sid st) x).
  { intros x Hx. unfold connected, on_connection. simpl.
    apply lookup_insert_is_Some'. by right. }
  intros [[Hlen Hq] Hflags]. split.
  - split; [done|]. intros x Hx. by apply Hc, Hq.
  - intros k Hk. by apply Hc, Hflags.
Qed.

Lemma queue_inv_closed (sid : string) (st : state) :
  queue_inv st → queue_inv (closed sid st).
Proof.
  intros [Hlen Hq]. split.
  - unfold closed. simpl.
    etrans; [apply (length_filter (λ id, id ≠ sid))|done].
  - intros x [Hne Hx]%elem_of_closed. unfold connected.
    rewrite lookup_closed_ne by done. by apply Hq.
Qed.

(** The [disconnect] handler is its first statement, then a steady part,
    then its last statement. *)
Lemma disconnect_handler_steady (sid : string) (sock : socket) (st : state) :
  ∃ mid,
    disconnect_handler sid sock st = delete_flag sid mid ∧
    steady (remove_from_queue sid st) mid.
Proof.
  unfold disconnect_handler. cbv zeta. eexists. split; [reflexivity|].
  destruct (opponent_ref sock) as [oid|]; [|steady].
  destruct (sockets (remove_from_queue sid st) !! oid) eqn:Ho; [|steady].
  assert (connected (remove_from_queue sid st) oid) by (by eexists). steady.
Qed.

Lemma invs_on_disconnect (sid : string) (st : state) :
  queue_inv st ∧ flags_inv st →
  queue_inv (on_disconnect sid st) ∧ flags_inv (on_disconnect sid st).
Proof.
  intros [Hqueue Hflags]. unfold on_disconnect.
  destruct (sockets st !! sid) as [sock|] eqn:Hs; [|done].
  destruct (disconnect_handler_steady sid sock (with_sockets (delete sid) st))
    as (mid & -> & Hsteady).
  fold (closed sid st) in Hsteady. destruct Hsteady as (Hc & Hf & Hq).
  split.
  - by apply Hq, queue_inv_closed.
  - intros k Hk. unfold flagged, delete_flag in Hk. simpl in Hk.
    apply lookup_delete_is_Some in Hk as [Hne Hk].
    apply (Hc k).
    assert (Hst : connected st k → connected (closed sid st) k).
    { unfold connected. by rewrite lookup_closed_ne. }
    destruct (Hf k Hk) as [Hk'|Hk']; [|done].
    by apply Hst, Hflags.
Qed.

Lemma server_reachable_invs (s : server) :
  server_reachable s → queue_inv (current s) ∧ flags_inv (current s).
Proof.
  induction 1 as [|e s Hreach IH Hacc].
  - split.
    + split; [simpl; lia|]. by intros x ?%elem_of_nil.
    + intros k [v Hk]. unfold initial in Hk. simpl in Hk.
      by rewrite lookup_empty in Hk.
  - destruct e; simpl.
    + by apply invs_on_connection.
    + eapply invs_steady; [apply steady_on_setWalletAddress|done].
    + eapply invs_steady; [apply steady_on_readyToPlay|done].
    + eapply invs_steady; [apply steady_on_signal|done].
    + eapply invs_steady; [apply steady_on_playerMove|done].
    + destruct (awaiting s !! n); [|done]. simpl.
      eapply invs_steady; [apply steady_playerMove_settled|done].
    + eapply invs_steady; [apply steady_on_requestRematch|done].
    + eapply invs_steady; [apply steady_on_rematchReady|done].
    + eapply invs_steady; [apply steady_on_findNewOpponent|done].
    + by apply invs_on_disconnect.
Qed.

Lemma server_reachable_serve (es : list inbound) :
  ∀ s, server_reachable s → acceptable_run es s → server_reachable (serve es s).
Proof.
  induction es as [|e es IH]; intros s Hs Hes; [done|].
  destruct Hes as [He Hes]. apply IH; [|done]. by constructor.
Qed.

Lemma game_A_B_reachable : server_reachable game_A_B.
Proof.
  apply server_reachable_serve; [constructor|].
  apply (bool_decide_unpack _). vm_compute. exact I.
Qed.

Lemma game_C_waiting_reachable : server_reachable game_C_waiting.
Proof.
  apply server_reachable_serve; [apply game_A_B_reachable|].
  apply (bool_decide_unpack _). vm_compute. exact I.
Qed.

(** ** What holds in every state of the server *)

(** X1. Whatever the clients send and in whatever order, at most one
    session is ever waiting in the queue. *)
Theorem at_most_one_waiting (s : server) :
  server_reachable s → (length (waitingPlayers (current s)) ≤ 1)%nat.
Proof. intros Hs. by destruct (server_reachable_invs s Hs) as [[Hlen _] _]. Qed.

Lemma at_most_one_waiting_witness :
  (length (waitingPlayers (current game_C_waiting)) ≤ 1)%nat.
Proof. apply at_most_one_waiting. exact game_C_waiting_reachable. Defined.

(** X2. Whatever the clients send, every id in the queue is the id of a
    connected session. *)
Theorem waiting_sessions_are_connected (s : server) (x : string) :
  server_reachable s →
  x ∈ waitingPlayers (current s) →
  connected (current s) x.
Proof.
  intros Hs Hx. destruct (server_reachable_invs s Hs) as [[_ Hq] _]. auto.
Qed.

Lemma waiting_sessions_are_connected_witness :
  connected (current game_C_waiting) "C".
Proof.
  apply waiting_sessions_are_connected; [exact game_C_waiting_reachable|].
  apply (bool_decide_unpack _). vm_compute. exact I.
Defined.

(** X3. So [matchmaking] never has to retry: called for a connected session
    in a state of the server, it finds the queue empty and leaves the caller
    alone in it, or finds one session waiting and pairs the caller with it,
    leaving the queue empty. *)
Theorem matchmaking_never_retries (s : server) (sid : string) :
  server_reachable s →
  connected (current s) sid →
  (waitingPlayers (current s) = [] ∧
   waitingPlayers (matchmaking sid (current s)) = [sid] ∧
   outbox (matchmaking sid (current s)) =
     outbox (current s) ++ [(sid, waitingForOpponent)])
  ∨ (∃ h,
       waitingPlayers (current s) = [h] ∧
       connected (current s) h ∧
       waitingPlayers (matchmaking sid (current s)) = [] ∧
       opponent_of (matchmaking sid (current s)) sid = Some h ∧
       opponent_of (matchmaking sid (current s)) h = Some sid ∧
       outbox (matchmaking sid (current s)) =
         outbox (current s)
           ++ [(sid, matchFound h offerer); (h, matchFound sid answerer)]).
Proof.
  intros Hs Hsid. destruct (server_reachable_invs s Hs) as [[Hlen Hq] _].
  destruct (waitingPlayers (current s)) as [|h rest] eqn:Hqueue.
  - left. split; [done|]. rewrite matchmaking_unfold, Hqueue. done.
  - right. destruct rest; [|simpl in Hlen; lia]. exists h.
    assert (Hh : connected (current s) h) by (apply Hq; left).
    rewrite (matchmaking_head_connected sid h []) by done.
    destruct (opponent_of_pair_up sid h [] (current s)) as [H1 H2]; [done..|].
    repeat split; try done. apply outbox_pair_up.
Qed.

Lemma matchmaking_never_retries_witness :
  (waitingPlayers (current game_C_waiting) = [] ∧
   waitingPlayers (matchmaking "A" (current game_C_waiting)) = ["A"] ∧
   outbox (matchmaking "A" (current game_C_waiting)) =
     outbox (current game_C_waiting) ++ [("A", waitingForOpponent)])
  ∨ (∃ h,
       waitingPlayers (current game_C_waiting) = [h] ∧
       connected (current game_C_waiting) h ∧
       waitingPlayers (matchmaking "A" (current game_C_waiting)) = [] ∧
       opponent_of (matchmaking "A" (current game_C_waiting)) "A" = Some h ∧
       opponent_of (matchmaking "A" (current game_C_waiting)) h = Some "A" ∧
       outbox (matchmaking "A" (current game_C_waiting)) =
         outbox (current game_C_waiting)
           ++ [("A", matchFound h offerer); (h, matchFound "A" answerer)]).
Proof.
  apply matchmaking_never_retries; [exact game_C_waiting_reachable|].
  by eexists.
Defined.

(** X4. Whatever the clients send, [rematchRequests] only has entries for
    connected sessions: no rematch flag outlives its session. *)
Theorem rematch_flags_are_of_connected_sessions (s : server) (k : string) :
  server_reachable s →
  flagged (current s) k →
  connected (current s) k.
Proof.
  intros Hs Hk. destruct (server_reachable_invs s Hs) as [_ Hflags]. auto.
Qed.

Lemma game_A_asked_reachable : server_reachable game_A_asked.
Proof.
  apply server_reachable_serve; [apply game_A_B_reachable|].
  apply (bool_decide_unpack _). vm_compute. exact I.
Qed.

Lemma rematch_flags_are_of_connected_sessions_witness :
  rematchRequests (current game_A_asked) !! "A" = Some true ∧
  connected (current game_A_asked) "A".
Proof.
  split; [reflexivity|].
  apply rematch_flags_are_of_connected_sessions;
    [exact game_A_asked_reachable | by eexists].
Defined.

(** X5. While clients only send [readyToPlay] when they are neither queued
    nor paired, and otherwise only connect and disconnect, pairing is
    symmetric and never dangling: the opponent a session sees is another
    session, is connected, and sees that session as its opponent. *)
Theorem pairing_is_symmetric (st : state) (a o : string) :
  reachable_wb st →
  ref_of st a = Some o →
  a ≠ o ∧ connected st o ∧ ref_of st o = Some a.
Proof.
  intros Hreach Hao.
  apply reachable_wb_inv in Hreach as [_ _ _ Hsym _].
  destruct (Hsym a o Hao) as [Hne Hoa].
  split; [done|]. split; [|done]. by eapply ref_of_is_Some.
Qed.

Lemma pairing_is_symmetric_witness :
  "A" ≠ "B" ∧ connected lobby_pair_and_C "B" ∧
  ref_of lobby_pair_and_C "B" = Some "A".
Proof.
  apply pairing_is_symmetric; [|reflexivity].
  apply reachable_wb_run; [constructor|].
  apply (bool_decide_unpack _). vm_compute. exact I.
Defined.

(** ** A round between two paired sessions *)

Lemma is_rps_truthy (m : value) : is_rps m = true → truthy m = true.
Proof. intros H. by apply is_rps_cases in H as [-> | [-> | ->]]. Qed.

Lemma determineWinner_beats (m1 m2 : value) :
  Beats m1 m2 → determineWinner m1 m2 = win ∧ determineWinner m2 m1 = lose.
Proof. by intros []. Qed.

Lemma Beats_is_rps (m1 m2 : value) :
  Beats m1 m2 → is_rps m1 = true ∧ is_rps m2 = true.
Proof. by intros []. Qed.

(** A move by [sid] when its opponent [oid], another connected session, has
    a move pending: the round is resolved on the spot. *)
Lemma on_playerMove_against (st : state) (sid oid : string) (mv : value)
    (sock osock : socket) :
  sockets st !! sid = Some sock →
  opponent_ref sock = Some oid →
  oid ≠ sid →
  sockets st !! oid = Some osock →
  truthy (move osock) = true →
  to_string_throws mv = false →
  on_playerMove sid mv st =
    match determineWinner mv (move osock) with
    | draw =>
        (reset_moves sid oid
           (emit oid (gameResult "Draw")
              (emit sid (gameResult "Draw") (set_move sid mv st))), None)
    | win =>
        (emit oid (gameResult "You lost!")
           (emit sid (gameResult "You won!") (set_move sid mv st)),
         Some (MintCall sid (walletAddress sock) sid oid))
    | lose =>
        (emit sid (gameResult "You lost!")
           (emit oid (gameResult "You won!") (set_move sid mv st)),
         Some (MintCall oid (walletAddress osock) sid oid))
    end.
Proof.
  intros Hs Hopp Hne Ho Htruthy Hp.
  rewrite (on_playerMove_cases st sid mv sock Hs Hp). cbv zeta.
  rewrite Hopp, lookup_set_move, decide_False, Ho, Htruthy by done. done.
Qed.

(** A move by [sid] when its opponent [oid], another connected session, has
    no move pending: the move is stored and nothing else happens. *)
Lemma on_playerMove_first (st : state) (sid oid : string) (mv : value)
    (sock osock : socket) :
  sockets st !! sid = Some sock →
  opponent_ref sock = Some oid →
  oid ≠ sid →
  sockets st !! oid = Some osock →
  truthy (move osock) = false →
  to_string_throws mv = false →
  on_playerMove sid mv st = (set_move sid mv st, None).
Proof.
  intros Hs Hopp Hne Ho Htruthy Hp.
  rewrite (on_playerMove_cases st sid mv sock Hs Hp). cbv zeta.
  by rewrite Hopp, lookup_set_move, decide_False, Ho, Htruthy by done.
Qed.

(** X6. A round between two sessions [a] and [b] that are each other's
    opponent, when [b] has no move pending and both play rock, paper or
    scissors.  The first move, by [a], is stored: nothing is sent and no
    reward is asked for.  The second, by [b], resolves the round: on equal
    moves both are sent "Draw" and no reward is asked for; otherwise the
    one whose move beats the other's is sent "You won!", the other
    "You lost!", and one reward call is started, for the winner and with
    the winner's [walletAddress]. *)
Theorem round_of_two_moves (st : state) (a b : string) (m1 m2 : value)
    (sa sb : socket) :
  sockets st !! a = Some sa → sockets st !! b = Some sb →
  opponent_ref sa = Some b → opponent_ref sb = Some a →
  a ≠ b →
  truthy (move sb) = false →
  is_rps m1 = true → is_rps m2 = true →
  on_playerMove a m1 st = (set_move a m1 st, None) ∧
  (m1 = m2 →
     outbox (on_playerMove b m2 (set_move a m1 st)).1 =
       outbox st ++ [(b, gameResult "Draw"); (a, gameResult "Draw")] ∧
     (on_playerMove b m2 (set_move a m1 st)).2 = None) ∧
  (Beats m1 m2 →
     outbox (on_playerMove b m2 (set_move a m1 st)).1 =
       outbox st ++ [(a, gameResult "You won!"); (b, gameResult "You lost!")] ∧
     (on_playerMove b m2 (set_move a m1 st)).2 =
       Some (MintCall a (walletAddress sa) b a)) ∧
  (Beats m2 m1 →
     outbox (on_playerMove b m2 (set_move a m1 st)).1 =
       outbox st ++ [(b, gameResult "You won!"); (a, gameResult "You lost!")] ∧
     (on_playerMove b m2 (set_move a m1 st)).2 =
       Some (MintCall b (walletAddress sb) b a)).
Proof.
  intros Ha Hb Hab Hba Hne Hfresh H1 H2.
  split; [by apply (on_playerMove_first st a b m1 sa sb), is_rps_printable|].
  assert (Hb1 : sockets (set_move a m1 st) !! b = Some sb).
  { by rewrite lookup_set_move, decide_False. }
  assert (Ha1 : sockets (set_move a m1 st) !! a =
                Some {| opponent := opponent sa; move := m1;
                        walletAddress := walletAddress sa |}).
  { by rewrite lookup_set_move, decide_True, Ha. }
  rewrite (on_playerMove_against (set_move a m1 st) b a m2 sb _ Hb1 Hba Hne Ha1)
    by (first [by apply is_rps_truthy | by apply is_rps_printable]).
  cbn [move walletAddress].
  split; [|split].
  - intros <-. rewrite determineWinner_same. simpl.
    by rewrite <- app_assoc.
  - intros [_ ->]%determineWinner_beats. simpl. by rewrite <- app_assoc.
  - intros [-> _]%determineWinner_beats. simpl. by rewrite <- app_assoc.
Qed.

Lemma round_of_two_moves_witness :
  on_playerMove "A" rock lobby_A_B = (set_move "A" rock lobby_A_B, None) ∧
  outbox (on_playerMove "B" scissors (set_move "A" rock lobby_A_B)).1 =
    outbox lobby_A_B
      ++ [("A", gameResult "You won!"); ("B", gameResult "You lost!")] ∧
  (on_playerMove "B" scissors (set_move "A" rock lobby_A_B)).2 =
    Some (MintCall "A" VUndefined "B" "A").
Proof.
  destruct (round_of_two_moves lobby_A_B "A" "B" rock scissors
              {| opponent := Some "B"; move := VUndefined;
                 walletAddress := VUndefined |}
              {| opponent := Some "A"; move := VUndefined;
                 walletAddress := VUndefined |})
    as (H1 & _ & H2 & _); try reflexivity; [discriminate|].
  split; [exact H1|]. apply H2. constructor.
Defined.

(** X7. The moves of a decided round stay pending until the reward call
    settles.  So when [a] has beaten [b] and sends its winning move once
    more before that, the round is resolved again against the move [b]
    played: [a] is sent "You won!" again, [b] "You lost!", and a second
    reward call is started for [a]. *)
Theorem winning_move_can_be_repeated (st : state) (a b : string)
    (m1 m2 : value) (sa sb : socket) :
  sockets st !! a = Some sa → sockets st !! b = Some sb →
  opponent_ref sa = Some b → opponent_ref sb = Some a →
  a ≠ b →
  truthy (move sb) = false →
  Beats m1 m2 →
  let decided := (on_playerMove b m2 (on_playerMove a m1 st).1).1 in
  move_of decided a = Some m1 ∧
  move_of decided b = Some m2 ∧
  outbox (on_playerMove a m1 decided).1 =
    outbox decided ++ [(a, gameResult "You won!"); (b, gameResult "You lost!")] ∧
  (on_playerMove a m1 decided).2 = Some (MintCall a (walletAddress sa) a b).
Proof.
  intros Ha Hb Hab Hba Hne Hfresh Hbeats.
  destruct (Beats_is_rps m1 m2 Hbeats) as [H1 H2].
  destruct (determineWinner_beats m1 m2 Hbeats) as [Hwin Hlose].
  rewrite (on_playerMove_first st a b m1 sa sb)
    by (done || by apply is_rps_printable).
  cbn [fst].
  assert (Hb1 : sockets (set_move a m1 st) !! b = Some sb).
  { by rewrite lookup_set_move, decide_False. }
  assert (Ha1 : sockets (set_move a m1 st) !! a =
                Some {| opponent := opponent sa; move := m1;
                        walletAddress := walletAddress sa |}).
  { by rewrite lookup_set_move, decide_True, Ha. }
  rewrite (on_playerMove_against (set_move a m1 st) b a m2 sb _ Hb1 Hba Hne Ha1)
    by (first [by apply is_rps_truthy | by apply is_rps_printable]).
  cbn [move]. rewrite Hlose. cbn [fst].
  set (st2 := set_move b m2 (set_move a m1 st)).
  assert (Ha2 : sockets st2 !! a =
                Some {| opponent := opponent sa; move := m1;
                        walletAddress := walletAddress sa |}).
  { unfold st2. by rewrite lookup_set_move, decide_False. }
  assert (Hb2 : sockets st2 !! b =
                Some {| opponent := opponent sb; move := m2;
                        walletAddress := walletAddress sb |}).
  { unfold st2. by rewrite lookup_set_move, decide_True, Hb1. }
  set (decided := emit b (gameResult "You lost!")
                    (emit a (gameResult "You won!") st2)).
  assert (Ha3 : sockets decided !! a = sockets st2 !! a) by done.
  assert (Hb3 : sockets decided !! b = sockets st2 !! b) by done.
  split; [unfold move_of; by rewrite Ha3, Ha2|].
  split; [unfold move_of; by rewrite Hb3, Hb2|].
  rewrite Ha2 in Ha3. rewrite Hb2 in Hb3.
  rewrite (on_playerMove_against decided a b m1 _ _ Ha3 Hab (not_eq_sym Hne) Hb3)
    by (first [by apply is_rps_truthy | by apply is_rps_printable]).
  cbn [move walletAddress]. rewrite Hwin. simpl. by rewrite <- app_assoc.
Qed.

Lemma winning_move_can_be_repeated_witness :
  let decided :=
    (on_playerMove "B" scissors (on_playerMove "A" rock lobby_A_B).1).1 in
  move_of decided "A" = Some rock ∧
  move_of decided "B" = Some scissors ∧
  outbox (on_playerMove "A" rock decided).1 =
    outbox decided
      ++ [("A", gameResult "You won!"); ("B", gameResult "You lost!")] ∧
  (on_playerMove "A" rock decided).2 = Some (MintCall "A" VUndefined "A" "B").
Proof.
  apply (winning_move_can_be_repeated lobby_A_B "A" "B" rock scissors
           {| opponent := Some "B"; move := VUndefined;
              walletAddress := VUndefined |}
           {| opponent := Some "A"; move := VUndefined;
              walletAddress := VUndefined |});
    solve [ reflexivity | discriminate | constructor ].
Defined.

(** X8. The reward call carries the address the winner set last.  When [a]
    sets an address and then plays against the pending move of its
    opponent [b]: if [a] wins, the call is for [a] with that address; if
    [b] wins, the call is for [b] with the address stored on [b], whatever
    [a] has set. *)
Theorem reward_call_uses_the_stored_address (st : state) (a b : string)
    (addr m1 : value) (sa sb : socket) :
  sockets st !! a = Some sa → sockets st !! b = Some sb →
  opponent_ref sa = Some b →
  a ≠ b →
  (Beats m1 (move sb) →
     (on_playerMove a m1 (on_setWalletAddress a addr st)).2 =
       Some (MintCall a addr a b)) ∧
  (Beats (move sb) m1 →
     (on_playerMove a m1 (on_setWalletAddress a addr st)).2 =
       Some (MintCall b (walletAddress sb) a b)).
Proof.
  intros Ha Hb Hab Hne. unfold on_setWalletAddress.
  assert (Ha1 : sockets (set_wallet a addr st) !! a =
                Some {| opponent := opponent sa; move := move sa;
                        walletAddress := addr |}).
  { unfold set_wallet. simpl. by rewrite lookup_alter_eq, Ha. }
  assert (Hb1 : sockets (set_wallet a addr st) !! b = Some sb).
  { unfold set_wallet. simpl. by rewrite lookup_alter_ne. }
  split; intros Hbeats;
    destruct (Beats_is_rps _ _ Hbeats) as [H1 H2];
    destruct (determineWinner_beats _ _ Hbeats) as [Hwin Hlose];
    rewrite (on_playerMove_against (set_wallet a addr st) a b m1 _ sb Ha1 Hab
               (not_eq_sym Hne) Hb1) by (first [by apply is_rps_truthy | by apply is_rps_printable]).
  - by rewrite Hwin.
  - by rewrite Hlose.
Qed.

Lemma reward_call_uses_the_stored_address_witness :
  (on_playerMove "A" scissors
     (on_setWalletAddress "A" (VStr "0xA") lobby_B_played)).2 =
    Some (MintCall "B" VUndefined "A" "B")
  ∧ (on_playerMove "A" paper
       (on_setWalletAddress "A" (VStr "0xA") lobby_B_played)).2 =
      Some (MintCall "A" (VStr "0xA") "A" "B").
Proof.
  split.
  - destruct (reward_call_uses_the_stored_address lobby_B_played "A" "B"
                (VStr "0xA") scissors
                {| opponent := Some "B"; move := VUndefined;
                   walletAddress := VUndefined |}
                {| opponent := Some "A"; move := rock;
                   walletAddress := VUndefined |}
                eq_refl eq_refl eq_refl ltac:(discriminate))
      as [_ H].
    apply H. constructor.
  - destruct (reward_call_uses_the_stored_address lobby_B_played "A" "B"
                (VStr "0xA") paper
                {| opponent := Some "B"; move := VUndefined;
                   walletAddress := VUndefined |}
                {| opponent := Some "A"; move := rock;
                   walletAddress := VUndefined |}
                eq_refl eq_refl eq_refl ltac:(discriminate))
      as [H _].
    apply H. constructor.
Defined.

(** ** Leaving an opponent *)

(** X9. [findNewOpponent] with nobody else waiting gives the caller its old
    opponent back.  When the caller [a] has a connected opponent [b] and the
    queue is empty, [b] is told its opponent left and is queued, and the
    caller is then paired with the only session waiting, which is [b]: [a]
    becomes offerer, [b] answerer, the queue is empty again, and neither has
    a rematch flag. *)
Theorem findNewOpponent_alone_finds_the_same (st : state) (a b : string)
    (sa : socket) :
  sockets st !! a = Some sa →
  opponent_ref sa = Some b →
  connected st b →
  a ≠ b →
  waitingPlayers st = [] →
  waitingPlayers (on_findNewOpponent a st) = [] ∧
  opponent_of (on_findNewOpponent a st) a = Some b ∧
  opponent_of (on_findNewOpponent a st) b = Some a ∧
  rematchRequests (on_findNewOpponent a st) !! a = None ∧
  rematchRequests (on_findNewOpponent a st) !! b = None ∧
  outbox (on_findNewOpponent a st) =
    outbox st
      ++ [(b, opponentLeft "Your opponent has decided to find a new opponent.");
          (b, waitingForOpponent);
          (a, matchFound b offerer);
          (b, matchFound a answerer)].
Proof.
  intros Ha Hab [sb Hb] Hne Hq. unfold on_findNewOpponent.
  rewrite Ha, Hab, Hb.
  set (st1 := delete_flag b (set_opponent b None
    (emit b (opponentLeft "Your opponent has decided to find a new opponent.")
       st))).
  assert (E1 : matchmaking b st1 = enqueue b st1).
  { rewrite matchmaking_unfold. unfold st1 at 1. simpl. by rewrite Hq. }
  rewrite E1.
  set (st2 := delete_flag a (set_opponent a None (enqueue b st1))).
  assert (Hconn : ∀ x, connected st2 x ↔ connected st x).
  { intros x. unfold st2, st1, connected. simpl.
    by rewrite !lookup_alter_is_Some. }
  assert (Ha2 : connected st2 a) by (apply Hconn; by eexists).
  assert (Hb2 : connected st2 b) by (apply Hconn; by eexists).
  rewrite (matchmaking_head_connected a b [] st2) by done.
  destruct (opponent_of_pair_up a b [] st2) as [H1 H2]; [done..|].
  split; [done|]. split; [done|]. split; [done|].
  split; [|split].
  - unfold pair_up, st2, st1. simpl. apply lookup_delete_eq.
  - unfold pair_up, st2, st1. simpl.
    rewrite lookup_delete_ne by done. apply lookup_delete_eq.
  - rewrite outbox_pair_up. unfold st2, st1. simpl.
    by rewrite <- !app_assoc.
Qed.

Lemma findNewOpponent_alone_finds_the_same_witness :
  waitingPlayers (on_findNewOpponent "A" lobby_A_B) = [] ∧
  opponent_of (on_findNewOpponent "A" lobby_A_B) "A" = Some "B" ∧
  opponent_of (on_findNewOpponent "A" lobby_A_B) "B" = Some "A" ∧
  rematchRequests (on_findNewOpponent "A" lobby_A_B) !! "A" = None ∧
  rematchRequests (on_findNewOpponent "A" lobby_A_B) !! "B" = None ∧
  outbox (on_findNewOpponent "A" lobby_A_B) =
    outbox lobby_A_B
      ++ [("B", opponentLeft "Your opponent has decided to find a new opponent.");
          ("B", waitingForOpponent);
          ("A", matchFound "B" offerer);
          ("B", matchFound "A" answerer)].
Proof.
  apply (findNewOpponent_alone_finds_the_same lobby_A_B "A" "B"
           {| opponent := Some "B"; move := VUndefined;
              walletAddress := VUndefined |});
    solve [ reflexivity | by eexists | discriminate ].
Defined.

(** X10. When the connection of a session [a] closes while [a] has a
    connected opponent [b] and nobody is waiting, [a] leaves the Registry,
    and [b] is told so, loses its opponent and its rematch flag, and is left
    alone in the queue with a [waitingForOpponent] notification. *)
Theorem disconnect_requeues_the_opponent (st : state) (a b : string)
    (sa : socket) :
  sockets st !! a = Some sa →
  opponent_ref sa = Some b →
  connected st b →
  a ≠ b →
  waitingPlayers st = [] →
  sockets (on_disconnect a st) !! a = None ∧
  connected (on_disconnect a st) b ∧
  opponent_of (on_disconnect a st) b = None ∧
  waitingPlayers (on_disconnect a st) = [b] ∧
  rematchRequests (on_disconnect a st) !! a = None ∧
  rematchRequests (on_disconnect a st) !! b = None ∧
  outbox (on_disconnect a st) =
    outbox st
      ++ [(b, opponentDisconnected "Your opponent has disconnected.");
          (b, waitingForOpponent)].
Proof.
  intros Ha Hab [sb Hb] Hne Hq. unfold on_disconnect. rewrite Ha.
  unfold disconnect_handler. fold (closed a st). cbv zeta. rewrite Hab.
  assert (Hb0 : sockets (closed a st) !! b = Some sb).
  { by rewrite lookup_closed_ne. }
  rewrite Hb0.
  set (st1 := delete_flag b (set_opponent b None
    (emit b (opponentDisconnected "Your opponent has disconnected.")
       (closed a st)))).
  assert (E1 : matchmaking b st1 = enqueue b st1).
  { rewrite matchmaking_unfold. unfold st1 at 1, closed. simpl.
    by rewrite Hq. }
  rewrite E1.
  assert (Hb1 : sockets st1 !! b =
                Some {| opponent := None; move := move sb;
                        walletAddress := walletAddress sb |}).
  { unfold st1, delete_flag.
    rewrite sockets_with_rematch, lookup_set_opponent, decide_True by done.
    by rewrite sockets_emit, Hb0. }
  split; [|split; [|split; [|split; [|split; [|split]]]]].
  - unfold st1, closed. simpl. rewrite lookup_alter_ne by done.
    apply lookup_delete_eq.
  - change (is_Some (sockets st1 !! b)). by rewrite Hb1.
  - change (sockets st1 !! b ≫= opponent = None). by rewrite Hb1.
  - done.
  - simpl. apply lookup_delete_eq.
  - simpl. rewrite lookup_delete_ne by done. apply lookup_delete_eq.
  - unfold st1, closed. simpl. by rewrite <- app_assoc.
Qed.

Lemma disconnect_requeues_the_opponent_witness :
  sockets (on_disconnect "A" lobby_A_B) !! "A" = None ∧
  connected (on_disconnect "A" lobby_A_B) "B" ∧
  opponent_of (on_disconnect "A" lobby_A_B) "B" = None ∧
  waitingPlayers (on_disconnect "A" lobby_A_B) = ["B"] ∧
  rematchRequests (on_disconnect "A" lobby_A_B) !! "A" = None ∧
  rematchRequests (on_disconnect "A" lobby_A_B) !! "B" = None ∧
  outbox (on_disconnect "A" lobby_A_B) =
    outbox lobby_A_B
      ++ [("B", opponentDisconnected "Your opponent has disconnected.");
          ("B", waitingForOpponent)].
Proof.
  apply (disconnect_requeues_the_opponent lobby_A_B "A" "B"
           {| opponent := Some "B"; move := VUndefined;
              walletAddress := VUndefined |});
    solve [ reflexivity | by eexists | discriminate ].
Defined.

(** X11. Whatever the state, once the connection of a connected session has
    closed, the session is in neither the Registry nor the queue and has no
    rematch flag. *)
Theorem disconnect_leaves_no_trace (st : state) (sid : string) :
  connected st sid →
  sockets (on_disconnect sid st) !! sid = None ∧
  (sid ∉ waitingPlayers (on_disconnect sid st)) ∧
  rematchRequests (on_disconnect sid st) !! sid = None.
Proof.
  intros [sock Hs]. unfold on_disconnect. rewrite Hs.
  assert (Hgone : ¬ connected (closed sid st) sid).
  { unfold connected, closed. simpl. rewrite lookup_delete_eq. by intros []. }
  assert (Hnq : sid ∉ waitingPlayers (closed sid st)).
  { rewrite elem_of_closed. tauto. }
  destruct (disconnect_handler_steady sid sock (with_sockets (delete sid) st))
    as (mid & Heq & Hsteady).
  fold (closed sid st) in Hsteady.
  split; [|split].
  - rewrite Heq. destruct Hsteady as (Hc & _ & _).
    destruct (sockets (delete_flag sid mid) !! sid) eqn:E; [|done].
    exfalso. apply Hgone, Hc. by eexists.
  - clear Heq Hsteady mid. unfold disconnect_handler.
    fold (closed sid st). cbv zeta.
    destruct (opponent_ref sock) as [oid|]; [|done].
    destruct (sockets (closed sid st) !! oid) eqn:Ho; [|done].
    change (sid ∉ waitingPlayers (matchmaking oid
      (delete_flag oid (set_opponent oid None
         (emit oid (opponentDisconnected "Your opponent has disconnected.")
            (closed sid st)))))).
    match goal with |- _ ∉ waitingPlayers (matchmaking _ ?s) =>
      destruct (matchmaking_queue oid s)
        as [-> | (stale & h & rest & Hold & ->)]
    end.
    + intros ->%list_elem_of_singleton. apply Hgone. by eexists.
    + intros Hin. apply Hnq.
      change (waitingPlayers (closed sid st) = stale ++ h :: rest) in Hold.
      rewrite Hold, elem_of_app. right. by right.
  - rewrite Heq. simpl. apply lookup_delete_eq.
Qed.

Lemma disconnect_leaves_no_trace_witness :
  queued lobby_A_waiting "A" ∧
  sockets (on_disconnect "A" lobby_A_waiting) !! "A" = None ∧
  ("A" ∉ waitingPlayers (on_disconnect "A" lobby_A_waiting)) ∧
  rematchRequests (on_disconnect "A" lobby_A_waiting) !! "A" = None.
Proof.
  split; [apply (bool_decide_unpack _); vm_compute; exact I|].
  apply disconnect_leaves_no_trace. by eexists.
Defined.

(** ** Rematches *)

(** X12. The rematch handshake of two sessions [a] and [b] that are each
    other's opponent, when [b] has not asked yet.  The request of [a] sets
    [a]'s flag and tells [b] that [a] wants a rematch and [a] that it is
    waiting.  The request of [b] that follows sets both flags to false,
    leaves the two as each other's opponent and the queue as it was, and
    sends [rematchReady] to both. *)
Theorem rematch_handshake (st : state) (a b : string) (sa sb : socket) :
  sockets st !! a = Some sa → sockets st !! b = Some sb →
  opponent_ref sa = Some b → opponent_ref sb = Some a →
  a ≠ b →
  rematch_flag st b = false →
  rematchRequests (on_requestRematch a st) !! a = Some true ∧
  outbox (on_requestRematch a st) =
    outbox st ++ [(b, opponentWantsRematch); (a, waitingForOpponentRematch)] ∧
  rematchRequests (on_requestRematch b (on_requestRematch a st)) !! a
    = Some false ∧
  rematchRequests (on_requestRematch b (on_requestRematch a st)) !! b
    = Some false ∧
  opponent_of (on_requestRematch b (on_requestRematch a st)) a = Some b ∧
  opponent_of (on_requestRematch b (on_requestRematch a st)) b = Some a ∧
  waitingPlayers (on_requestRematch b (on_requestRematch a st))
    = waitingPlayers st ∧
  outbox (on_requestRematch b (on_requestRematch a st)) =
    outbox (on_requestRematch a st)
      ++ [(b, rematchReady a); (a, rematchReady b)].
Proof.
  intros Ha Hb Hab Hba Hne Hflag.
  assert (E1 : on_requestRematch a st =
               emit a waitingForOpponentRematch
                 (emit b opponentWantsRematch (set_flag a true st))).
  { unfold on_requestRematch. by rewrite Ha, Hab, Hb, Hflag. }
  rewrite E1.
  set (st1 := emit a waitingForOpponentRematch
                (emit b opponentWantsRematch (set_flag a true st))).
  assert (Hflag1 : rematch_flag st1 a = true).
  { unfold rematch_flag, st1. simpl. by rewrite lookup_insert_eq. }
  assert (E2 : on_requestRematch b st1 =
               set_opponent a (Some b)
                 (set_opponent b (Some a)
                    (set_flag b false
                       (set_flag a false
                          (emit a (rematchReady b)
                             (emit b (rematchReady a) st1)))))).
  { unfold on_requestRematch.
    change (sockets st1) with (sockets st). by rewrite Hb, Hba, Ha, Hflag1. }
  rewrite E2.
  split; [unfold st1; simpl; apply lookup_insert_eq|].
  split; [unfold st1; simpl; by rewrite <- app_assoc|].
  split; [simpl; by rewrite lookup_insert_ne, lookup_insert_eq|].
  split; [simpl; apply lookup_insert_eq|].
  split.
  { rewrite opponent_of_set_opponent_eq; [done|].
    apply set_opponent_is_Some. by eexists. }
  split.
  { rewrite opponent_of_set_opponent_ne by done.
    rewrite opponent_of_set_opponent_eq; [done | by eexists]. }
  split; [done|]. simpl. by rewrite <- app_assoc.
Qed.

Lemma rematch_handshake_witness :
  rematchRequests (on_requestRematch "A" lobby_A_B) !! "A" = Some true ∧
  outbox (on_requestRematch "A" lobby_A_B) =
    outbox lobby_A_B
      ++ [("B", opponentWantsRematch); ("A", waitingForOpponentRematch)] ∧
  rematchRequests (on_requestRematch "B" (on_requestRematch "A" lobby_A_B)) !! "A"
    = Some false ∧
  rematchRequests (on_requestRematch "B" (on_requestRematch "A" lobby_A_B)) !! "B"
    = Some false ∧
  opponent_of (on_requestRematch "B" (on_requestRematch "A" lobby_A_B)) "A"
    = Some "B" ∧
  opponent_of (on_requestRematch "B" (on_requestRematch "A" lobby_A_B)) "B"
    = Some "A" ∧
  waitingPlayers (on_requestRematch "B" (on_requestRematch "A" lobby_A_B))
    = waitingPlayers lobby_A_B ∧
  outbox (on_requestRematch "B" (on_requestRematch "A" lobby_A_B)) =
    outbox (on_requestRematch "A" lobby_A_B)
      ++ [("B", rematchReady "A"); ("A", rematchReady "B")].
Proof.
  apply (rematch_handshake lobby_A_B "A" "B"
           {| opponent := Some "B"; move := VUndefined;
              walletAddress := VUndefined |}
           {| opponent := Some "A"; move := VUndefined;
              walletAddress := VUndefined |});
    solve [ reflexivity | discriminate ].
Defined.

Lemma on_rematchReady_connected (sid x : string) (v : value) (st : state) :
  connected (on_rematchReady sid v st) x ↔ connected st x.
Proof. by destruct (steady_on_rematchReady sid v st) as [Hc _]. Qed.

(** X13. When two connected sessions both answer [rematchReady], each
    naming the other, each of them is sent [matchFound] twice, once with
    each role: the session that answers first is offerer and then answerer,
    the other answerer and then offerer.  The two end up as each other's
    opponent. *)
Theorem both_answer_rematchReady (st : state) (a b : string) :
  connected st a → connected st b →
  a ≠ b →
  outbox (on_rematchReady b (VStr a) (on_rematchReady a (VStr b) st)) =
    outbox st
      ++ [(a, matchFound b offerer); (b, matchFound a answerer);
          (b, matchFound a offerer); (a, matchFound b answerer)] ∧
  opponent_of (on_rematchReady b (VStr a) (on_rematchReady a (VStr b) st)) a
    = Some b ∧
  opponent_of (on_rematchReady b (VStr a) (on_rematchReady a (VStr b) st)) b
    = Some a.
Proof.
  intros Ha Hb Hne.
  assert (Ha1 : connected (on_rematchReady a (VStr b) st) a)
    by (by apply on_rematchReady_connected).
  assert (Hb1 : connected (on_rematchReady a (VStr b) st) b)
    by (by apply on_rematchReady_connected).
  destruct (opponent_of_on_rematchReady
              (on_rematchReady a (VStr b) st) b a Hb1 Ha1) as (H1 & H2 & _).
  split; [|done].
  rewrite outbox_on_rematchReady by done.
  rewrite outbox_on_rematchReady by done.
  by rewrite <- app_assoc.
Qed.

Lemma both_answer_rematchReady_witness :
  outbox (on_rematchReady "B" (VStr "A")
            (on_rematchReady "A" (VStr "B") lobby_A_B)) =
    outbox lobby_A_B
      ++ [("A", matchFound "B" offerer); ("B", matchFound "A" answerer);
          ("B", matchFound "A" offerer); ("A", matchFound "B" answerer)] ∧
  opponent_of (on_rematchReady "B" (VStr "A")
                 (on_rematchReady "A" (VStr "B") lobby_A_B)) "A" = Some "B" ∧
  opponent_of (on_rematchReady "B" (VStr "A")
                 (on_rematchReady "A" (VStr "B") lobby_A_B)) "B" = Some "A".
Proof.
  apply both_answer_rematchReady; solve [ by eexists | discriminate ].
Defined.

(** X14. [rematchReady] with an [opponentId] that names no connected
    session (a string that is no session's id, or a value that is not a
    string), sent while nobody is waiting.  When the value can be converted
    to a string, the caller is told its opponent has disconnected, loses
    its opponent and is left alone in the queue; no other session is
    touched or told: if the caller had a connected opponent, that session
    still has the caller as its opponent.  When the value cannot be
    converted, the handler throws where it logs it, before any of this:
    nothing changes and nothing is sent. *)
Theorem rematchReady_for_absent_session (st : state) (a : string) (v : value) :
  connected st a →
  sockets_get st v = None →
  waitingPlayers st = [] →
  (to_string_throws v = false →
     opponent_of (on_rematchReady a v st) a = None ∧
     waitingPlayers (on_rematchReady a v st) = [a] ∧
     outbox (on_rematchReady a v st) =
       outbox st
         ++ [(a, opponentLeft "Your opponent has disconnected.");
             (a, waitingForOpponent)] ∧
     ∀ other, other ≠ a →
       sockets (on_rematchReady a v st) !! other = sockets st !! other)
  ∧ (to_string_throws v = true → on_rematchReady a v st = st).
Proof.
  intros [sa Ha] Hv Hq. unfold on_rematchReady. rewrite Ha, Hv.
  split; intros ->; [|done]. cbv zeta.
  set (st1 := set_opponent a None
                (emit a (opponentLeft "Your opponent has disconnected.") st)).
  assert (E : matchmaking a st1 = enqueue a st1).
  { rewrite matchmaking_unfold. unfold st1 at 1. simpl. by rewrite Hq. }
  rewrite E. split; [|split; [|split]].
  - change (opponent_of st1 a = None). unfold st1.
    rewrite opponent_of_set_opponent_eq; [done | by eexists].
  - done.
  - unfold st1. simpl. by rewrite <- app_assoc.
  - intros other Hne. change (sockets st1 !! other = sockets st !! other).
    unfold st1. by rewrite lookup_set_opponent, decide_False.
Qed.

Lemma rematchReady_for_absent_session_witness :
  opponent_of lobby_A_B "B" = Some "A" ∧
  (opponent_of (on_rematchReady "A" (VNum 7) lobby_A_B) "A" = None ∧
   waitingPlayers (on_rematchReady "A" (VNum 7) lobby_A_B) = ["A"] ∧
   outbox (on_rematchReady "A" (VNum 7) lobby_A_B) =
     outbox lobby_A_B
       ++ [("A", opponentLeft "Your opponent has disconnected.");
           ("A", waitingForOpponent)] ∧
   ∀ other, other ≠ "A" →
     sockets (on_rematchReady "A" (VNum 7) lobby_A_B) !! other =
       sockets lobby_A_B !! other) ∧
  on_rematchReady "A" (VObj 0 false) lobby_A_B = lobby_A_B.
Proof.
  split; [reflexivity|]. split.
  - destruct (rematchReady_for_absent_session lobby_A_B "A" (VNum 7))
      as [H _]; [by eexists | reflexivity | reflexivity |].
    apply H. reflexivity.
  - destruct (rematchReady_for_absent_session lobby_A_B "A" (VObj 0 false))
      as [_ H]; [by eexists | reflexivity | reflexivity |].
    apply H. reflexivity.
Defined.

(** ** Relaying signals *)



(** ** Entering the lobby *)

(** X16. Two connected sessions that send [readyToPlay] one after the other
    while nobody is waiting are paired with each other: the first is told
    to wait and then becomes answerer, the second becomes offerer, and the
    queue is empty again. *)
Theorem ready_then_ready_pairs (st : state) (a b : string) :
  connected st a → connected st b →
  a ≠ b →
  waitingPlayers st = [] →
  waitingPlayers (on_readyToPlay b (on_readyToPlay a st)) = [] ∧
  opponent_of (on_readyToPlay b (on_readyToPlay a st)) a = Some b ∧
  opponent_of (on_readyToPlay b (on_readyToPlay a st)) b = Some a ∧
  outbox (on_readyToPlay b (on_readyToPlay a st)) =
    outbox st
      ++ [(a, waitingForOpponent);
          (b, matchFound a offerer);
          (a, matchFound b answerer)].
Proof.
  intros [sa Ha] [sb Hb] Hne Hq.
  assert (E1 : on_readyToPlay a st = enqueue a st).
  { unfold on_readyToPlay. rewrite Ha, matchmaking_unfold, Hq. done. }
  rewrite E1. unfold on_readyToPlay.
  change (sockets (enqueue a st)) with (sockets st). rewrite Hb.
  rewrite (matchmaking_head_connected b a [] (enqueue a st))
    by (done || by eexists).
  destruct (opponent_of_pair_up b a [] (enqueue a st)) as [H1 H2];
    [by eexists..|].
  split; [done|]. split; [done|]. split; [done|].
  rewrite outbox_pair_up. simpl. by rewrite <- app_assoc.
Qed.

Lemma ready_then_ready_pairs_witness :
  waitingPlayers (on_readyToPlay "B" (on_readyToPlay "A"
    (run [Connect "A"; Connect "B"] initial))) = [] ∧
  opponent_of (on_readyToPlay "B" (on_readyToPlay "A"
    (run [Connect "A"; Connect "B"] initial))) "A" = Some "B" ∧
  opponent_of (on_readyToPlay "B" (on_readyToPlay "A"
    (run [Connect "A"; Connect "B"] initial))) "B" = Some "A" ∧
  outbox (on_readyToPlay "B" (on_readyToPlay "A"
    (run [Connect "A"; Connect "B"] initial))) =
    outbox (run [Connect "A"; Connect "B"] initial)
      ++ [("A", waitingForOpponent);
          ("B", matchFound "A" offerer);
          ("A", matchFound "B" answerer)].
Proof.
  apply ready_then_ready_pairs;
    solve [ by eexists | discriminate | reflexivity ].
Defined.

(** X17. Only the opening and the closing of a connection change who is in
    the Registry: no message of a client and no settling of a reward call
    adds or removes a session. *)
Theorem only_connections_change_the_registry (e : inbound) (s : server)
    (x : string) :
  (∀ sid, e ≠ InConnection sid) →
  (∀ sid, e ≠ InDisconnect sid) →
  connected (current (handle e s)) x ↔ connected (current s) x.
Proof.
  intros Hc Hd.
  assert (Hsteady : steady (current s) (current (handle e s))).
  { destruct e; simpl.
    - by destruct (Hc sid).
    - apply steady_on_setWalletAddress.
    - apply steady_on_readyToPlay.
    - apply steady_on_signal.
    - apply steady_on_playerMove.
    - destruct (awaiting s !! n); [|apply steady_refl].
      apply steady_playerMove_settled.
    - apply steady_on_requestRematch.
    - apply steady_on_rematchReady.
    - apply steady_on_findNewOpponent.
    - by destruct (Hd sid). }
  by destruct Hsteady as [H _].
Qed.

Lemma only_connections_change_the_registry_witness :
  connected (current (handle (InFindNewOpponent "A") game_A_B)) "B"
  ↔ connected (current game_A_B) "B".
Proof. apply only_connections_change_the_registry; discriminate. Defined.

(** X18. [requestRematch] from a session whose opponent is no longer
    connected, while nobody is waiting: the caller is told its opponent has
    disconnected, loses its opponent and is left alone in the queue; no
    rematch flag is set. *)
Theorem requestRematch_after_opponent_left (st : state) (a b : string)
    (sa : socket) :
  sockets st !! a = Some sa →
  opponent_ref sa = Some b →
  ¬ connected st b →
  waitingPlayers st = [] →
  opponent_of (on_requestRematch a st) a = None ∧
  waitingPlayers (on_requestRematch a st) = [a] ∧
  rematchRequests (on_requestRematch a st) = rematchRequests st ∧
  outbox (on_requestRematch a st) =
    outbox st
      ++ [(a, opponentLeft "Your opponent has disconnected.");
          (a, waitingForOpponent)].
Proof.
  intros Ha Hab Hb Hq. unfold on_requestRematch. rewrite Ha, Hab.
  destruct (sockets st !! b) eqn:Hb'; [exfalso; apply Hb; by eexists|].
  cbv zeta.
  set (st1 := set_opponent a None
                (emit a (opponentLeft "Your opponent has disconnected.") st)).
  assert (E : matchmaking a st1 = enqueue a st1).
  { rewrite matchmaking_unfold. unfold st1 at 1. simpl. by rewrite Hq. }
  rewrite E. split; [|split; [|split]].
  - change (opponent_of st1 a = None). unfold st1.
    rewrite opponent_of_set_opponent_eq; [done | by eexists].
  - done.
  - done.
  - unfold st1. simpl. by rewrite <- app_assoc.
Qed.

Lemma requestRematch_after_opponent_left_witness :
  opponent_of lobby_B_D_stranded "D" = Some "C" ∧
  opponent_of (on_requestRematch "D" lobby_B_D_stranded) "D" = None ∧
  waitingPlayers (on_requestRematch "D" lobby_B_D_stranded) = ["D"] ∧
  rematchRequests (on_requestRematch "D" lobby_B_D_stranded) =
    rematchRequests lobby_B_D_stranded ∧
  outbox (on_requestRematch "D" lobby_B_D_stranded) =
    outbox lobby_B_D_stranded
      ++ [("D", opponentLeft "Your opponent has disconnected.");
          ("D", waitingForOpponent)].
Proof.
  split; [reflexivity|].
  apply (requestRematch_after_opponent_left lobby_B_D_stranded "D" "C"
           {| opponent := Some "C"; move := VUndefined;
              walletAddress := VUndefined |});
    [reflexivity | reflexivity | | reflexivity].
  intros [s Hs]. discriminate Hs.
Defined.
